(** * CodeEditor: the synchronisation controller of the GeoStyler code editor

    A shallow embedding of [src/Component/CodeEditor/CodeEditor.tsx].

    The component is a React function component.  Its behaviour is modelled
    as an event-driven state machine over a [World]:

    - the host-owned parser objects live in a shared store ([heap]); the
      component only ever holds references to them, so the in-place mutation
      done by [onUnitSelect] is visible through every alias;
    - the [useState] cells are the fields of [State];
    - the two [usePrevious] hooks are two ref cells holding the value of the
      previous render;
    - [let editTimeout] is a local of the component function: every render
      gets a fresh one, and the controls call the handlers of the latest
      render;
    - [window.setTimeout] timers and promises awaiting settlement are kept in
      explicit queues, each entry carrying what its closure captured; time
      passes and promises settle when the environment says so ([Advance],
      [Settle]), in any order;
    - React renders the component again after a handler that changed a state
      cell, and whenever the host renders it;
    - every call that leaves the component (parser methods, the JSON
      built-ins, the host callback) is appended to a chronological [log];
      the host callback returns or throws, as the host has it. *)

From Stdlib Require Import String Ascii List Arith Lia Bool Sorted.
From stdpp Require Import base decidable option list strings.
Import ListNotations.

Local Open Scope string_scope.
Local Open Scope nat_scope.
Local Open Scope list_scope.

(** ** JavaScript values used by the component *)

(** A reference to an object owned by the host (an index into [heap]). *)
Abbreviation ref := nat (only parsing).

(** A [StyleParser] instance, as far as the component looks at it: the
    [title], and for SLD parsers [sldVersion] and the mutable
    [symbolizerUnits].  [ctor] stands for the class of the instance. *)
Record StyleParser := mkParser {
  title : string;
  sldVersion : option string;
  symbolizerUnits : option string;
  ctor : nat
}.

#[global] Instance StyleParser_eq_dec : EqDecision StyleParser.
Proof. solve_decision. Defined.

(** [parser.symbolizerUnits = selection] *)
Definition assign_symbolizerUnits (selection : string) (p : StyleParser) : StyleParser :=
  {| title := title p; sldVersion := sldVersion p;
     symbolizerUnits := Some selection; ctor := ctor p |}.

(** A JavaScript [Error]; only [message] is read. *)
Record JsError := mkError { message : string }.

(** How a promise settles. *)
Inductive settled (A : Type) : Type :=
| Fulfilled (a : A)
| Rejected (e : JsError).
Arguments Fulfilled {A} a.
Arguments Rejected {A} e.

(** How a synchronous call completes. *)
Inductive completion (A : Type) : Type :=
| Returned (a : A)
| Thrown (e : JsError).
Arguments Returned {A} a.
Arguments Thrown {A} e.

(** [WriteStyleResult<string>]: both members are optional. *)
Record WriteStyleResult := mkWrite {
  write_output : option string;
  write_errors : option (list JsError)
}.

(** [ReadStyleResult] *)
Record ReadStyleResult (Style : Type) := mkRead {
  read_output : option Style;
  read_errors : option (list JsError)
}.
Arguments mkRead {Style} _ _.
Arguments read_output {Style} _.
Arguments read_errors {Style} _.

(** What the component is linked against: the style values with lodash's
    [_isEqual] on them (a decidable value equality), the JSON built-ins and
    the two methods of the parser classes.  A method's outcome is a function
    of the instance as it is when the method is called and of the argument;
    when the promise settles is left to the environment. *)
Class Platform := {
  Style : Type;
  Style_eq_dec :: EqDecision Style;
  (** [JSON.stringify(s, null, indent)] on a style object *)
  JSON_stringify : Style -> nat -> string;
  (** [JSON.parse(v)] *)
  JSON_parse : option string -> completion Style;
  (** [parser.writeStyle(s)] *)
  writeStyle : StyleParser -> option Style -> settled WriteStyleResult;
  (** [parser.readStyle(v)] *)
  readStyle : StyleParser -> option string -> settled (ReadStyleResult Style);
  (** what the host's [onStyleChange] does when it is called with a style:
      it returns, or it throws *)
  host_onStyleChange : option Style -> completion unit
}.

(** [Array.prototype.join] on strings *)
Fixpoint join (sep : string) (l : list string) : string :=
  match l with
  | [] => EmptyString
  | [x] => x
  | x :: rest => (x ++ sep ++ join sep rest)%string
  end.

(** [String.prototype.includes] *)
Fixpoint includes (needle hay : string) : bool :=
  String.prefix needle hay ||
  match hay with
  | EmptyString => false
  | String _ rest => includes needle rest
  end.

Section CodeEditor.

Context `{Platform}.

(** ** Props, state and the world around the component *)

(** The props the host passes; all are optional. *)
Record Props := mkProps {
  defaultParser : option ref;
  delay_prop : option nat;
  style : option Style;
  parsers_prop : option (list ref)
}.

(** The defaults of the parameter list (lines 95-104): [delay = 500] and
    [parsers = []]. *)
Definition delay (p : Props) : nat := default 500 (delay_prop p).
Definition parsers (p : Props) : list ref := default [] (parsers_prop p).

(** The [useState] cells.  [None] is [undefined]. *)
Record State := mkState {
  activeParser : option ref;
  isSldParser : option bool;
  value : option string;
  invalidMessage : option string;
  hasError : bool
}.

#[global] Instance State_eq_dec : EqDecision State.
Proof. solve_decision. Defined.

(** A pending [window.setTimeout(() => { onChange(v); }, delay)].  The arrow
    function closes over [v] and over the [onChange] of the render that
    created it, hence over that render's [activeParser]. *)
Record Timer := mkTimer {
  timer_id : nat;
  due : nat;
  captured_parser : option ref;
  text : option string
}.

(** A promise the component awaits, with the way it is going to settle. *)
Inductive Pending :=
| AwaitWriteStyle (o : settled WriteStyleResult)
| AwaitReadStyle (o : settled (ReadStyleResult Style)).

(** Calls that leave the component, in the order they are made. *)
Inductive call :=
| CallWriteStyle (r : ref) (p : StyleParser) (s : option Style)
| CallReadStyle (r : ref) (p : StyleParser) (v : option string)
| CallJSONStringify (s : option Style)
| CallJSONParse (v : option string)
| CallOnStyleChange (s : option Style)
| UnhandledRejection (e : JsError).

Record World := mkWorld {
  heap : list StyleParser;
  props : Props;
  state : State;
  previousStyleRef : option Style;
  previousParserRef : option ref;
  editTimeout : option nat;
  timers : list Timer;
  next_timer : nat;
  now : nat;
  inflight : list Pending;
  log : list call
}.

(** Commands: the component's functions transform the world. *)
Definition cmd := World -> World.

Definition andThen (c1 c2 : cmd) : cmd := fun w => c2 (c1 w).
Infix ">>" := andThen (at level 62, right associativity).

Definition with_state (f : State -> State) : cmd := fun w =>
  mkWorld (heap w) (props w) (f (state w)) (previousStyleRef w)
    (previousParserRef w) (editTimeout w) (timers w) (next_timer w) (now w)
    (inflight w) (log w).

Definition with_heap (f : list StyleParser -> list StyleParser) : cmd := fun w =>
  mkWorld (f (heap w)) (props w) (state w) (previousStyleRef w)
    (previousParserRef w) (editTimeout w) (timers w) (next_timer w) (now w)
    (inflight w) (log w).

Definition with_props (p : Props) : cmd := fun w =>
  mkWorld (heap w) p (state w) (previousStyleRef w)
    (previousParserRef w) (editTimeout w) (timers w) (next_timer w) (now w)
    (inflight w) (log w).

Definition with_previous (s : option Style) (p : option ref) : cmd := fun w =>
  mkWorld (heap w) (props w) (state w) s p (editTimeout w) (timers w)
    (next_timer w) (now w) (inflight w) (log w).

Definition with_editTimeout (t : option nat) : cmd := fun w =>
  mkWorld (heap w) (props w) (state w) (previousStyleRef w)
    (previousParserRef w) t (timers w) (next_timer w) (now w)
    (inflight w) (log w).

Definition with_timers (f : list Timer -> list Timer) : cmd := fun w =>
  mkWorld (heap w) (props w) (state w) (previousStyleRef w)
    (previousParserRef w) (editTimeout w) (f (timers w)) (next_timer w) (now w)
    (inflight w) (log w).

Definition with_next_timer (n : nat) : cmd := fun w =>
  mkWorld (heap w) (props w) (state w) (previousStyleRef w)
    (previousParserRef w) (editTimeout w) (timers w) n (now w)
    (inflight w) (log w).

Definition with_now (n : nat) : cmd := fun w =>
  mkWorld (heap w) (props w) (state w) (previousStyleRef w)
    (previousParserRef w) (editTimeout w) (timers w) (next_timer w) n
    (inflight w) (log w).

Definition with_inflight (f : list Pending -> list Pending) : cmd := fun w =>
  mkWorld (heap w) (props w) (state w) (previousStyleRef w)
    (previousParserRef w) (editTimeout w) (timers w) (next_timer w) (now w)
    (f (inflight w)) (log w).

(** Record a call. *)
Definition emit (c : call) : cmd := fun w =>
  mkWorld (heap w) (props w) (state w) (previousStyleRef w)
    (previousParserRef w) (editTimeout w) (timers w) (next_timer w) (now w)
    (inflight w) (log w ++ [c]).

(** The state setters returned by [useState]. *)
Definition setActiveParser (p : option ref) : cmd :=
  with_state (fun s => mkState p (isSldParser s) (value s) (invalidMessage s) (hasError s)).
Definition setIsSldParser (b : option bool) : cmd :=
  with_state (fun s => mkState (activeParser s) b (value s) (invalidMessage s) (hasError s)).
Definition setValue (v : option string) : cmd :=
  with_state (fun s => mkState (activeParser s) (isSldParser s) v (invalidMessage s) (hasError s)).
Definition setInvalidMessage (m : option string) : cmd :=
  with_state (fun s => mkState (activeParser s) (isSldParser s) (value s) m (hasError s)).
Definition setHasError (b : bool) : cmd :=
  with_state (fun s => mkState (activeParser s) (isSldParser s) (value s) (invalidMessage s) b).

(** The host's [onStyleChange]: the model records the call. *)
Definition onStyleChange (s : option Style) : cmd := emit (CallOnStyleChange s).

(** How the [try] of lines 167-182 ends after a call made inside it: when
    the call returns nothing more happens, when it throws the [catch] of
    lines 180-182 stores the message. *)
Definition catch_thrown {A : Type} (c : completion A) : cmd :=
  match c with
  | Returned _ => fun w => w
  | Thrown err => setInvalidMessage (Some (message err))
  end.

(** ** lodash [_isEqual] *)

Definition isEqual_style (a b : option Style) : bool := bool_decide (a = b).

(** On two parser references: the same object, or two objects with equal
    contents; [undefined] equals only [undefined]. *)
Definition isEqual_parser (h : list StyleParser) (a b : option ref) : bool :=
  match a, b with
  | None, None => true
  | Some x, Some y => bool_decide (x = y) || bool_decide (h !! x = h !! y)
  | _, _ => false
  end.

(** ** The component's functions

    A reference held by the component always points into the store; where
    the source would dereference one that does not, the functions below
    stop. *)

(** [updateValueFromStyle] (lines 130-148).  The executor handed to
    [new Promise] is an async function: it runs synchronously up to its first
    [await] and the promise it returns is dropped, so the outer promise never
    settles and the handler given to [.catch] is never run.  The part after
    [await activeParser.writeStyle(s)] is [resume_writeStyle]. *)
Definition updateValueFromStyle (ap : option ref) (s : option Style) : cmd :=
  setHasError false >>
  fun w =>
    match ap with
    | Some r =>
        match heap w !! r with
        | Some p =>
            (emit (CallWriteStyle r p s) >>
             with_inflight (fun q => q ++ [AwaitWriteStyle (writeStyle p s)])) w
        | None => w
        end
    | None =>
        (emit (CallJSONStringify s) >>
         setValue (match s with
                   | Some s' => Some (JSON_stringify s' 2)
                   | None => None
                   end)) w
    end.

(** [errors?.length > 0] *)
Definition has_errors (errors : option (list JsError)) : bool :=
  match errors with
  | Some (_ :: _) => true
  | _ => false
  end.

Definition resume_writeStyle (o : settled WriteStyleResult) : cmd :=
  match o with
  | Fulfilled res =>
      if has_errors (write_errors res) then setHasError true
      else setValue (write_output res)
  | Rejected e => emit (UnhandledRejection e)
  end.



(** [onChange] (lines 164-183), called with the [activeParser] its closure
    captured.  The part after [await activeParser.readStyle(v)] is
    [resume_readStyle]. *)
Definition onChange (ap : option ref) (v : option string) : cmd :=
  setValue v >>
  setInvalidMessage None >>
  fun w =>
    match ap with
    | Some r =>
        match heap w !! r with
        | Some p =>
            (emit (CallReadStyle r p v) >>
             with_inflight (fun q => q ++ [AwaitReadStyle (readStyle p v)])) w
        | None => w
        end
    | None =>
        (emit (CallJSONParse v) >>
         match JSON_parse v with
         | Returned parsedStyle =>
             onStyleChange (Some parsedStyle) >>
             catch_thrown (host_onStyleChange (Some parsedStyle))
         | Thrown err => setInvalidMessage (Some (message err))
         end) w
    end.

Definition resume_readStyle (o : settled (ReadStyleResult Style)) : cmd :=
  match o with
  | Fulfilled res =>
      let errors := default [] (read_errors res) in
      let parsedStyle :=
        if 0 <? length errors then None else read_output res in
      (if 0 <? length errors
       then setInvalidMessage (Some (join ", " (map message errors)))
       else fun w => w) >>
      onStyleChange parsedStyle >>
      catch_thrown (host_onStyleChange parsedStyle)
  | Rejected err => setInvalidMessage (Some (message err))
  end.

(** [parsers.find((p) => p.title === selection)] *)
Fixpoint find_parser (h : list StyleParser) (selection : string) (ps : list ref)
  : option ref :=
  match ps with
  | [] => None
  | r :: rest =>
      match h !! r with
      | Some p => if bool_decide (title p = selection) then Some r
                  else find_parser h selection rest
      | None => find_parser h selection rest
      end
  end.

(** [onParserSelect] (lines 185-188) *)
Definition onParserSelect (selection : string) : cmd := fun w =>
  let parser := find_parser (heap w) selection (parsers (props w)) in
  setActiveParser parser w.

(** [onUnitSelect] (lines 190-196) *)
Definition onUnitSelect (selection : string) : cmd := fun w =>
  match activeParser (state w) with
  | Some r =>
      (with_heap (alter (assign_symbolizerUnits selection) r) >>
       updateValueFromStyle (Some r) (style (props w))) w
  | None => w
  end.

(** [clearTimeout]; of [undefined] it does nothing. *)
Definition clearTimeout (t : option nat) : cmd :=
  match t with
  | Some id => with_timers (filter (fun x => timer_id x <> id))
  | None => fun w => w
  end.

(** [window.setTimeout(() => { onChange(v); }, ms)]; the identifier it
    returns is the [next_timer] it found. *)
Definition setTimeout (ap : option ref) (v : option string) (ms : nat) : cmd := fun w =>
  (with_timers (fun ts => ts ++ [mkTimer (next_timer w) (now w + ms) ap v]) >>
   with_next_timer (S (next_timer w))) w.

(** [handleOnChange] (lines 198-206) *)
Definition handleOnChange (v : option string) : cmd := fun w =>
  (clearTimeout (editTimeout w) >>
   setTimeout (activeParser (state w)) v (delay (props w)) >>
   with_editTimeout (Some (next_timer w))) w.

(** ** Rendering *)

(** [activeParser?.title.includes('SLD')] *)
Definition title_includes_SLD (h : list StyleParser) (ap : option ref) : option bool :=
  match ap with
  | Some r => match h !! r with
              | Some p => Some (includes "SLD" (title p))
              | None => None
              end
  | None => None
  end.

(** Modelled from the spec: the hook [usePrevious] of hook/UsePrevious,
    which is not part of the source at hand.  The controller compares the
    style and the parser it is given with the ones it saw last (spec 4.1), so
    the hook is React's usual previous-value hook: during a render it
    returns what its ref cell holds, [undefined] on the first render, and an
    effect stores the current value once the render is done. *)
Definition usePrevious {A : Type} (cell : World -> A) (w : World) : A := cell w.

Definition usePrevious_effects (s : option Style) (ap : option ref) : cmd :=
  with_previous s ap.

(** One run of the component function with its effects (lines 106-158).

    The effect of lines 150-154 is guarded by its dependency array; since
    both compared pairs are among the dependencies, the test of line 151
    can only succeed on a render in which a dependency changed, so the guard
    is left out.  The effect of lines 156-158 stores a function of
    [activeParser] alone, so running it on every render stores the same
    value. *)
Definition render : cmd := fun w =>
  let previousStyle := usePrevious previousStyleRef w in
  let previouseParser := usePrevious previousParserRef w in
  let ap := activeParser (state w) in
  let s := style (props w) in
  (with_editTimeout None >>
   usePrevious_effects s ap >>
   (if negb (isEqual_style previousStyle s)
       || negb (isEqual_parser (heap w) previouseParser ap)
    then updateValueFromStyle ap s
    else fun w' => w') >>
   setIsSldParser (title_includes_SLD (heap w) ap)) w.

(** What the component returns (lines 160-162 and 258-308). *)
Inductive View :=
| FaultView (heading : string)
| EditorView (format_select_value : string) (units_select : bool)
    (editor_value : option string) (language : string)
    (errormessage : option string).

Definition truthy (b : option bool) : bool := default false b.

(** [isSldParser && activeParser && activeParser.sldVersion !== '1.0.0'] *)
Definition parserHasUnitSelect (w : World) : bool :=
  truthy (isSldParser (state w)) &&
  match activeParser (state w) with
  | Some r => match heap w !! r with
              | Some p => negb (bool_decide (sldVersion p = Some "1.0.0"))
              | None => false
              end
  | None => false
  end.

Definition view (w : World) : View :=
  if hasError (state w) then FaultView "An error occured in the CodeEditor UI."
  else
    EditorView
      (match activeParser (state w) with
       | Some r => match heap w !! r with
                   | Some p => title p
                   | None => "GeoStyler Style"
                   end
       | None => "GeoStyler Style"
       end)
      (parserHasUnitSelect w)
      (value (state w))
      (if truthy (isSldParser (state w)) then "xml" else "json")
      (invalidMessage (state w)).

(** ** The event loop *)

Inductive event :=
| HostRender (p : Props)          (* the host renders the component with props [p] *)
| UserEdit (v : option string)    (* the editor surface reports a change *)
| ParserSelect (selection : string)
| UnitSelect (selection : string)
| Settle (i : nat)                (* the [i]-th awaited promise settles *)
| Advance (ms : nat).             (* time passes *)

(** React renders again when a state cell has changed. *)
Definition rerender (before : World) : cmd := fun w =>
  if decide (state w = state before) then w else render w.

(** The timer to run next: among those due, the earliest, and among equally
    early ones the first created. *)
Fixpoint earliest (ts : list Timer) : option Timer :=
  match ts with
  | [] => None
  | t :: rest =>
      match earliest rest with
      | Some t' => if due t' <? due t then Some t' else Some t
      | None => Some t
      end
  end.

Definition next_due (w : World) : option Timer :=
  earliest (filter (fun t => due t <= now w) (timers w)).

Definition fire (t : Timer) : cmd := fun w =>
  rerender w
    ((with_timers (filter (fun x => timer_id x <> timer_id t)) >>
      onChange (captured_parser t) (text t)) w).

Fixpoint fire_due (n : nat) : cmd := fun w =>
  match n with
  | 0 => w
  | S n' => match next_due w with
            | Some t => fire_due n' (fire t w)
            | None => w
            end
  end.

Definition resume (p : Pending) : cmd :=
  match p with
  | AwaitWriteStyle o => resume_writeStyle o
  | AwaitReadStyle o => resume_readStyle o
  end.

(** The controls exist only while the editor view is shown. *)
Definition step (e : event) : cmd := fun w =>
  match e with
  | HostRender p => render (with_props p w)
  | UserEdit v =>
      if hasError (state w) then w else handleOnChange v w
  | ParserSelect selection =>
      if hasError (state w) then w else rerender w (onParserSelect selection w)
  | UnitSelect selection =>
      if negb (hasError (state w)) && parserHasUnitSelect w
      then rerender w (onUnitSelect selection w) else w
  | Settle i =>
      match inflight w !! i with
      | Some p => rerender w ((with_inflight (delete i) >> resume p) w)
      | None => w
      end
  | Advance ms =>
      let w' := with_now (now w + ms) w in
      fire_due (length (timers w')) w'
  end.

Definition run (es : list event) : cmd := fun w => fold_left (fun a e => step e a) es w.

(** Mounting: the [useState] initial values, then the first render. *)
Definition mount (h : list StyleParser) (p : Props) : World :=
  render
    (mkWorld h p (mkState (defaultParser p) (Some false) (Some EmptyString)
                    (Some EmptyString) false)
       None None None [] 0 0 [] []).

Inductive reachable : World -> Prop :=
| reachable_mount h p : reachable (mount h p)
| reachable_step e w : reachable w -> reachable (step e w).

(** The two [usePrevious] cells agree with what was last rendered. *)
Definition synced (w : World) : Prop :=
  previousStyleRef w = style (props w) /\
  previousParserRef w = activeParser (state w).

(** [w'] has the props and the [usePrevious] cells of [w]. *)
Definition same_frame (w w' : World) : Prop :=
  props w' = props w /\
  previousStyleRef w' = previousStyleRef w /\
  previousParserRef w' = previousParserRef w.

(** Timer identifiers handed out so far are below [next_timer]. *)
Definition fresh_ids (w : World) : Prop :=
  Forall (fun t => timer_id t < next_timer w) (timers w).

(** Classes of calls in the log. *)
Definition is_serialize (c : call) : bool :=
  match c with
  | CallWriteStyle _ _ _ | CallJSONStringify _ => true
  | _ => false
  end.

Definition is_deserialize (c : call) : bool :=
  match c with
  | CallReadStyle _ _ _ | CallJSONParse _ => true
  | _ => false
  end.

Definition is_onStyleChange (c : call) : bool :=
  match c with
  | CallOnStyleChange _ => true
  | _ => false
  end.

Definition count_calls (f : call -> bool) (l : list call) : nat :=
  length (List.filter f l).

(** An external style-or-parser change: the host hands over the style [s],
    the active parser is [ap], and the component renders.  This is the
    situation the effect of lines 150-154 watches for. *)
Definition with_style (s : option Style) : cmd := fun w =>
  with_props (mkProps (defaultParser (props w)) (delay_prop (props w)) s
                (parsers_prop (props w))) w.

Definition external_change (s : option Style) (ap : option ref) : cmd :=
  with_style s >> setActiveParser ap >> render.

(** ** The toolbar and the download button (lines 208-228 and 258-281) *)

(** [parserOptions] (lines 208-215): the raw option, then one option per
    supplied parser in the supplied order; the key and the value of an option
    are the parser's title. *)
Definition parserOptions (w : World) : list string :=
  "GeoStyler Style" :: omap (fun r => title <$> heap w !! r) (parsers (props w)).

(** The [value] of the format select (line 266). *)
Definition format_select (w : World) : string :=
  match activeParser (state w) with
  | Some r => match heap w !! r with
              | Some p => title p
              | None => "GeoStyler Style"
              end
  | None => "GeoStyler Style"
  end.

(** The [language] of the editor (line 279). *)
Definition editor_language (w : World) : string :=
  if truthy (isSldParser (state w)) then "xml" else "json".

(** What [saveAs] is handed: the blob's part and type, and the file name. *)
Record Download := mkDownload {
  blob_part : option string;
  blob_type : string;
  file_name : string
}.

(** [onDownloadButtonClick] (lines 217-228); [style_name] reads
    [style.name].  Nothing is saved when there is no style. *)
Definition onDownloadButtonClick (style_name : Style -> string) (w : World)
  : option Download :=
  match style (props w) with
  | Some s =>
      let fileName := style_name s in
      let type := "application/json;charset=utf-8" in
      if truthy (isSldParser (state w))
      then Some (mkDownload (value (state w)) "text/xml;charset=utf-8"
                   (fileName ++ ".sld")%string)
      else Some (mkDownload (value (state w)) type fileName)
  | None => None
  end.

(** ** Bursts of events *)

(** Edits with pauses after them. *)
Definition burst (l : list (option string * nat)) : list event :=
  flat_map (fun vd => [UserEdit (fst vd); Advance (snd vd)]) l.

(** What a parser object is, as opposed to how it is configured. *)
Definition identity (p : StyleParser) : string * option string * nat :=
  (title p, sldVersion p, ctor p).

Definition is_ParserSelect (e : event) : bool :=
  match e with ParserSelect _ => true | _ => false end.

Definition is_UnitSelect (e : event) : bool :=
  match e with UnitSelect _ => true | _ => false end.

(** The timers that are due. *)
Definition due_timers (w : World) : list Timer :=
  filter (fun t => due t <= now w) (timers w).

(** No two running timers share an identifier. *)
Definition unique_ids (w : World) : Prop :=
  forall t1 t2, t1 ∈ timers w -> t2 ∈ timers w ->
                timer_id t1 = timer_id t2 -> t1 = t2.

(** [w'] runs on the clock of [w] with the same timers. *)
Definition same_clock (w w' : World) : Prop :=
  timers w' = timers w /\ next_timer w' = next_timer w /\ now w' = now w.

(** The decoding call a commit of [v] makes with the parser [ap]. *)
Definition commit_call (h : list StyleParser) (ap : option ref)
    (v : option string) : list call :=
  match ap with
  | Some r => match h !! r with
              | Some p => [CallReadStyle r p v]
              | None => []
              end
  | None => [CallJSONParse v]
  end.

(** The serialisation call [updateValueFromStyle] makes. *)
Definition serialize_call (h : list StyleParser) (ap : option ref)
    (s : option Style) : list call :=
  match ap with
  | Some r => match h !! r with
              | Some p => [CallWriteStyle r p s]
              | None => []
              end
  | None => [CallJSONStringify s]
  end.

(** During a burst of edits nothing but the one timer moves. *)
Definition burst_inv (w0 w : World) : Prop :=
  state w = state w0 /\ props w = props w0 /\ heap w = heap w0 /\
  log w = log w0 /\ inflight w = inflight w0 /\
  (timers w = [] \/ exists t, timers w = [t] /\ editTimeout w = Some (timer_id t)).

(** The host renders the component with a style that differs, by value,
    from the one it has. *)
Definition brings_new_style (e : event) (w : World) : bool :=
  match e with
  | HostRender p => negb (isEqual_style (style (props w)) (style p))
  | _ => false
  end.

(** The text [updateValueFromStyle] leaves at once: the printed style
    without a parser, the text as it is with one. *)
Definition text_after_update (ap : option ref) (s : option Style)
    (v : option string) : option string :=
  match ap with
  | Some _ => v
  | None => match s with
            | Some s' => Some (JSON_stringify s' 2)
            | None => None
            end
  end.

(** [isSldParser] is what the effect of lines 156-158 computes from the
    active parser. *)
Definition sld_in_step (w : World) : Prop :=
  isSldParser (state w) = title_includes_SLD (heap w) (activeParser (state w)).

(** The host renders the component, or the user selects a format. *)
Definition is_external_change (e : event) : bool :=
  match e with
  | HostRender _ | ParserSelect _ => true
  | _ => false
  end.



(** The decoding calls the commits of the timers [ts] make, one after the
    other. *)
Definition commit_calls_of (h : list StyleParser) (ts : list Timer) : list call :=
  flat_map (fun t => commit_call h (captured_parser t) (text t)) ts.

(** Earlier timers first. *)
Definition by_due (ts : list Timer) : Prop :=
  StronglySorted (fun a b => due a <= due b) ts.

(** The events that can end in a commit handing a style to the host: time
    passing, and a [readStyle] promise settling. *)
Definition may_commit (e : event) (w : World) : bool :=
  match e with
  | Advance _ => true
  | Settle i => match inflight w !! i with
                | Some (AwaitReadStyle _) => true
                | _ => false
                end
  | _ => false
  end.

End CodeEditor.

(** ** A concrete host

    Styles are the objects [{name: ...}]; three parser classes are linked in.
    The examples and the closed lemmas below are run against this host. *)
Module Demo.

Record GsStyle := mkStyle { name : string }.

#[global] Instance GsStyle_eq_dec : EqDecision GsStyle.
Proof. solve_decision. Defined.

Definition dq : string := String "034"%char EmptyString.
Definition nl : string := String "010"%char EmptyString.

Fixpoint spaces (n : nat) : string :=
  match n with
  | 0 => EmptyString
  | S n' => String " "%char (spaces n')
  end.

(** [JSON.stringify({name: n}, null, indent)], for names that need no
    escaping. *)
Definition stringify (s : GsStyle) (indent : nat) : string :=
  ("{" ++ nl ++ spaces indent ++ dq ++ "name" ++ dq ++ ": "
       ++ dq ++ name s ++ dq ++ nl ++ "}")%string.

Definition style_x : GsStyle := mkStyle "x".
Definition style_y : GsStyle := mkStyle "y".

(** [JSON.parse] restricted to the documents the examples use: the printed
    forms of [style_x] and [style_y] are decoded, [undefined] and every
    other text is a [SyntaxError]. *)
Definition parse (v : option string) : completion GsStyle :=
  match v with
  | Some t =>
      if String.eqb t (stringify style_x 2) then Returned style_x
      else if String.eqb t (stringify style_y 2) then Returned style_y
      else Thrown (mkError "Unexpected token in JSON")
  | None => Thrown (mkError "Unexpected token u in JSON at position 0")
  end.

(** [text.startsWith(p) ? text.slice(p.length) : undefined] *)
Fixpoint strip (p text : string) : option string :=
  match p, text with
  | EmptyString, _ => Some text
  | String a p', String b text' =>
      if Ascii.eqb a b then strip p' text' else None
  | String _ _, EmptyString => None
  end.

(** Class 0 writes a style as [FMT:name], or [FMT(units):name] once its
    [symbolizerUnits] is set, and reads [FMT:name] back; any other text is
    reported in [errors].  Class 1 rejects whatever it is asked.  Class 2
    reports every style it is asked to write in [errors]. *)
Definition write (p : StyleParser) (s : option GsStyle) : settled WriteStyleResult :=
  match ctor p, s with
  | 0, Some s' =>
      Fulfilled (mkWrite
        (Some (match symbolizerUnits p with
               | Some u => ("FMT(" ++ u ++ "):" ++ name s')%string
               | None => ("FMT:" ++ name s')%string
               end))
        None)
  | 0, None => Rejected (mkError "Cannot read properties of undefined")
  | 1, _ => Rejected (mkError "writeStyle failed")
  | _, _ => Fulfilled (mkWrite None (Some [mkError "unsupported symbolizer"]))
  end.

Definition read (p : StyleParser) (v : option string)
  : settled (ReadStyleResult GsStyle) :=
  match ctor p, v with
  | 0, Some t =>
      match strip "FMT:" t with
      | Some n => Fulfilled (mkRead (Some (mkStyle n)) None)
      | None => Fulfilled (mkRead None
                  (Some [mkError "missing FMT header"; mkError "no style found"]))
      end
  | 0, None => Fulfilled (mkRead None (Some [mkError "no input"]))
  | _, _ => Rejected (mkError "readStyle failed")
  end.

Definition platform : Platform :=
  {| Style := GsStyle; JSON_stringify := stringify; JSON_parse := parse;
     writeStyle := write; readStyle := read;
     host_onStyleChange := fun _ => Returned tt |}.

(** The host's parser objects. *)
Definition fmt : StyleParser := mkParser "Fmt" None None 0.
Definition broken : StyleParser := mkParser "Broken" None None 1.
Definition sld : StyleParser := mkParser "SLD 1.1.0" (Some "1.1.0") None 0.
Definition fmt_twin : StyleParser := mkParser "Fmt" None (Some "px") 0.
Definition shadow : StyleParser := mkParser "GeoStyler Style" None None 0.
Definition picky : StyleParser := mkParser "Picky" None None 2.

(** The store: [fmt] is there twice, as two objects with equal contents. *)
Definition objects : list StyleParser :=
  [fmt; broken; sld; fmt_twin; shadow; picky; fmt].

Definition props_fmt : Props :=
  mkProps (H := platform) (Some 0) None (Some style_x) (Some [1; 0; 3; 5]).

Definition props_fmt_y : Props :=
  mkProps (H := platform) (Some 0) None (Some style_y) (Some [1; 0; 3; 5]).

Definition props_raw : Props :=
  mkProps (H := platform) None None (Some style_x) None.

Definition props_choice : Props :=
  mkProps (H := platform) None None (Some style_x) (Some [0; 1]).

Definition props_shadow : Props :=
  mkProps (H := platform) None (Some 500) (Some style_x) (Some [0; 4]).

Definition props_sld : Props :=
  mkProps (H := platform) (Some 2) (Some 500) (Some style_x) (Some [0; 2]).

End Demo.

(** * Properties *)

Section Properties.

Context `{Platform}.

Infix ">>" := andThen (at level 62, right associativity).

(** ** What the functions leave alone *)

Lemma same_frame_refl w : same_frame w w.
Proof. by repeat split. Qed.

Lemma same_frame_trans w1 w2 w3 :
  same_frame w1 w2 -> same_frame w2 w3 -> same_frame w1 w3.
Proof. intros (?&?&?) (?&?&?). repeat split; congruence. Qed.

Lemma updateValueFromStyle_frame ap s w :
  same_frame w (updateValueFromStyle ap s w).
Proof.
  unfold updateValueFromStyle, andThen.
  destruct ap as [r|]; cbn; [destruct (heap w !! r)|]; by repeat split.
Qed.

Lemma updateValueFromStyle_heap ap s w :
  heap (updateValueFromStyle ap s w) = heap w.
Proof.
  unfold updateValueFromStyle, andThen.
  destruct ap as [r|]; cbn; [destruct (heap w !! r)|]; done.
Qed.

Lemma updateValueFromStyle_activeParser ap s w :
  activeParser (state (updateValueFromStyle ap s w)) = activeParser (state w).
Proof.
  unfold updateValueFromStyle, andThen.
  destruct ap as [r|]; cbn; [destruct (heap w !! r)|]; done.
Qed.

Lemma onChange_frame ap v w : same_frame w (onChange ap v w).
Proof.
  unfold onChange, andThen.
  destruct ap as [r|]; cbn; [destruct (heap w !! r)|destruct (JSON_parse v) as [parsed_|err_];
     [destruct (host_onStyleChange (Some parsed_))|]];
    by repeat split.
Qed.

Lemma onChange_activeParser ap v w :
  activeParser (state (onChange ap v w)) = activeParser (state w).
Proof.
  unfold onChange, andThen.
  destruct ap as [r|]; cbn; [destruct (heap w !! r)|destruct (JSON_parse v) as [parsed_|err_];
     [destruct (host_onStyleChange (Some parsed_))|]]; done.
Qed.

Lemma resume_frame p w : same_frame w (resume p w).
Proof.
  destruct p as [[res|e]|[res|e]]; cbn; unfold andThen, catch_thrown;
    repeat case_match; by repeat split.
Qed.

Lemma onParserSelect_frame sel w : same_frame w (onParserSelect sel w).
Proof. by repeat split. Qed.

Lemma onUnitSelect_frame sel w : same_frame w (onUnitSelect sel w).
Proof.
  unfold onUnitSelect, andThen. destruct (activeParser (state w)); [|apply same_frame_refl].
  eapply same_frame_trans; [|apply updateValueFromStyle_frame]. by repeat split.
Qed.

Lemma handleOnChange_frame v w : same_frame w (handleOnChange v w).
Proof.
  unfold handleOnChange, andThen, clearTimeout.
  destruct (editTimeout w); by repeat split.
Qed.

Lemma handleOnChange_state v w : state (handleOnChange v w) = state w.
Proof.
  unfold handleOnChange, andThen, clearTimeout. by destruct (editTimeout w).
Qed.

(** ** The [usePrevious] cells follow the renders *)

Lemma render_props w : props (render w) = props w.
Proof.
  unfold render, usePrevious, usePrevious_effects, andThen. cbn. case_match; cbn; [|done].
  match goal with |- props (updateValueFromStyle ?a ?s ?x) = _ =>
    destruct (updateValueFromStyle_frame a s x) as (-> & _) end. done.
Qed.

Lemma render_synced w : synced (render w).
Proof.
  unfold synced, render, andThen. cbn. case_match; cbn; [|done].
  match goal with |- context [updateValueFromStyle ?a ?s ?x] =>
    destruct (updateValueFromStyle_frame a s x) as (-> & -> & ->);
    rewrite (updateValueFromStyle_activeParser a s x) end. done.
Qed.

Lemma isEqual_style_refl (s : option Style) : isEqual_style s s = true.
Proof. unfold isEqual_style. by apply bool_decide_eq_true. Qed.

Lemma isEqual_parser_refl h (a : option ref) : isEqual_parser h a a = true.
Proof.
  destruct a as [r|]; cbn; [|done].
  apply orb_true_iff. left. by apply bool_decide_eq_true.
Qed.

(** On a world whose cells are up to date a render requests nothing: it
    only renews [editTimeout] and refreshes [isSldParser]. *)
Lemma render_of_synced w :
  synced w ->
  render w =
  (with_editTimeout None >>
   setIsSldParser (title_includes_SLD (heap w) (activeParser (state w)))) w.
Proof.
  intros [Hs Hp]. unfold render, usePrevious, usePrevious_effects, andThen.
  rewrite Hs, Hp, isEqual_style_refl, isEqual_parser_refl. cbn.
  destruct w; cbn in *. by subst.
Qed.

Lemma rerender_synced before w :
  synced before -> same_frame before w -> synced (rerender before w).
Proof.
  intros [Hs Hp] (Hprops & Hps & Hpp). unfold rerender.
  case_decide as Hst; [|apply render_synced].
  split; congruence.
Qed.

Lemma fire_synced t w : synced w -> synced (fire t w).
Proof.
  intros Hw. unfold fire. apply rerender_synced; [done|].
  unfold andThen. eapply same_frame_trans; [|apply onChange_frame].
  by repeat split.
Qed.

Lemma fire_due_synced n w : synced w -> synced (fire_due n w).
Proof.
  revert w. induction n as [|n IH]; intros w Hw; cbn; [done|].
  destruct (next_due w); [|done]. apply IH. by apply fire_synced.
Qed.

Lemma step_synced e w : synced w -> synced (step e w).
Proof.
  intros Hw. destruct e; cbn.
  - apply render_synced.
  - destruct (hasError (state w)); [done|].
    destruct Hw as [Hs Hp]. destruct (handleOnChange_frame v w) as (? & ? & ?).
    split; rewrite ?handleOnChange_state; congruence.
  - destruct (hasError (state w)); [done|].
    apply rerender_synced; [done|apply onParserSelect_frame].
  - case_match; [|done].
    apply rerender_synced; [done|apply onUnitSelect_frame].
  - destruct (inflight w !! i) as [p|]; [|done].
    apply rerender_synced; [done|]. unfold andThen.
    eapply same_frame_trans; [|apply resume_frame]. by repeat split.
  - apply fire_due_synced. destruct Hw. by split.
Qed.

Lemma reachable_synced w : reachable w -> synced w.
Proof.
  induction 1 as [h p|e w _ IH]; [apply render_synced|by apply step_synced].
Qed.

Lemma reachable_run es w : reachable w -> reachable (run es w).
Proof.
  revert w. induction es as [|e es IH]; intros w Hw; cbn; [done|].
  apply IH. by constructor.
Qed.

(** ** External changes (lines 130-154) *)

Lemma render_heap w : heap (render w) = heap w.
Proof.
  unfold render, usePrevious, usePrevious_effects, andThen. cbn. case_match; cbn; [|done].
  by rewrite updateValueFromStyle_heap.
Qed.

Lemma render_activeParser w :
  activeParser (state (render w)) = activeParser (state w).
Proof.
  unfold render, usePrevious, usePrevious_effects, andThen. cbn. case_match; cbn; [|done].
  by rewrite updateValueFromStyle_activeParser.
Qed.

(** A render whose comparison of line 151 finds nothing new. *)
Lemma render_quiet w :
  isEqual_style (previousStyleRef w) (style (props w)) = true ->
  isEqual_parser (heap w) (previousParserRef w) (activeParser (state w)) = true ->
  render w =
  (with_editTimeout None >>
   with_previous (style (props w)) (activeParser (state w)) >>
   setIsSldParser (title_includes_SLD (heap w) (activeParser (state w)))) w.
Proof. intros Hs Hp. unfold render, usePrevious, usePrevious_effects, andThen. by rewrite Hs, Hp. Qed.

Lemma count_calls_app f (l1 l2 : list call) :
  count_calls f (l1 ++ l2) = count_calls f l1 + count_calls f l2.
Proof. unfold count_calls. by rewrite List.filter_app, length_app. Qed.

(** [updateValueFromStyle] asks for at most one serialisation. *)
Lemma updateValueFromStyle_serialize_calls ap s w :
  count_calls is_serialize (log (updateValueFromStyle ap s w))
  <= S (count_calls is_serialize (log w)).
Proof.
  unfold updateValueFromStyle, andThen.
  destruct ap as [r|]; cbn; [destruct (heap w !! r)|]; cbn;
    unfold count_calls; rewrite ?List.filter_app, ?length_app; cbn; lia.
Qed.

Lemma render_serialize_calls w :
  count_calls is_serialize (log (render w))
  <= S (count_calls is_serialize (log w)).
Proof.
  unfold render, usePrevious, usePrevious_effects, andThen. cbn. case_match; cbn; unfold count_calls; [|lia].
  match goal with |- context [updateValueFromStyle ?a ?s ?x] =>
    pose proof (updateValueFromStyle_serialize_calls a s x) as Hle end.
  exact Hle.
Qed.

(** C6. Two external changes in a row with the same style and the same
    parser, compared by value ([_isEqual]: the second parser may be another
    object with the same contents), request at most one serialisation: the
    second change makes no call at all, leaves no new promise pending and
    changes neither the text nor the error state. *)
Theorem external_change_twice_serializes_once w s ap ap' :
  isEqual_parser (heap w) ap ap' = true ->
  let w1 := external_change s ap w in
  let w2 := external_change s ap' w1 in
  log w2 = log w1 /\
  inflight w2 = inflight w1 /\
  value (state w2) = value (state w1) /\
  hasError (state w2) = hasError (state w1) /\
  invalidMessage (state w2) = invalidMessage (state w1) /\
  count_calls is_serialize (log w2) <= S (count_calls is_serialize (log w)).
Proof.
  intros Heq w1 w2.
  assert (Hheap : heap w1 = heap w) by (unfold w1, external_change, andThen; by rewrite render_heap).
  assert (Hsync : synced w1) by apply render_synced.
  assert (Hstyle : style (props w1) = s)
    by (unfold w1, external_change, andThen; by rewrite render_props).
  assert (Hap : activeParser (state w1) = ap)
    by (unfold w1, external_change, andThen; by rewrite render_activeParser).
  destruct Hsync as [Hps Hpp].
  assert (Hle : count_calls is_serialize (log w1)
                <= S (count_calls is_serialize (log w)))
    by exact (render_serialize_calls (setActiveParser ap (with_style s w))).
  clearbody w1.
  assert (Hw2 : log w2 = log w1 /\ inflight w2 = inflight w1 /\
                value (state w2) = value (state w1) /\
                hasError (state w2) = hasError (state w1) /\
                invalidMessage (state w2) = invalidMessage (state w1)).
  { unfold w2, external_change, andThen. rewrite render_quiet.
    - by cbn.
    - cbn. rewrite Hps, Hstyle. apply isEqual_style_refl.
    - cbn. rewrite Hpp, Hap, Hheap. exact Heq. }
  destruct Hw2 as (Hlog & ? & ? & ? & ?). repeat split; try done.
  by rewrite Hlog.
Qed.

(** The same when the host simply renders twice with the same props. *)
Lemma host_render_twice w p :
  log (step (HostRender p) (step (HostRender p) w)) = log (step (HostRender p) w).
Proof.
  unfold step. set (w1 := render (with_props p w)).
  destruct (render_synced (with_props p w)) as [Hps Hpp]. fold w1 in Hps, Hpp.
  assert (Hprops : props w1 = p) by (unfold w1; by rewrite render_props).
  clearbody w1. rewrite render_quiet; cbn.
  - done.
  - rewrite Hps, Hprops. apply isEqual_style_refl.
  - rewrite Hpp. apply isEqual_parser_refl.
Qed.

(** ** Raw mode (lines 144-145 and 176-178) *)

(** Mounted without a parser, the component shows the printed style. *)
Lemma mount_raw h p S :
  defaultParser p = None -> style p = Some S ->
  value (state (mount h p)) = Some (JSON_stringify S 2).
Proof.
  intros Hd Hs. unfold mount, render, usePrevious, usePrevious_effects, andThen. cbn. rewrite Hd, Hs. by cbn.
Qed.

(** ** The units select (lines 190-196) *)

(** C8. With an active parser, [onUnitSelect] stores the selection in the
    parser object the component refers to: the object at that reference is
    updated, no other object changes, none is added, and [activeParser]
    still refers to it.  It then goes through [updateValueFromStyle], the
    function an external change goes through, with the current style: the
    updated object's [writeStyle] is called at once and its promise is
    awaited. *)
Theorem onUnitSelect_mutates_in_place w selection r p :
  activeParser (state w) = Some r ->
  heap w !! r = Some p ->
  let w' := onUnitSelect selection w in
  let p' := assign_symbolizerUnits selection p in
  heap w' !! r = Some p' /\
  symbolizerUnits p' = Some selection /\
  length (heap w') = length (heap w) /\
  (forall r', r' <> r -> heap w' !! r' = heap w !! r') /\
  activeParser (state w') = Some r /\
  w' = updateValueFromStyle (Some r) (style (props w))
         (with_heap (alter (assign_symbolizerUnits selection) r) w) /\
  log w' = log w ++ [CallWriteStyle r p' (style (props w))] /\
  inflight w' = inflight w ++ [AwaitWriteStyle (writeStyle p' (style (props w)))].
Proof.
  intros Hap Hr w' p'. unfold w', onUnitSelect. rewrite Hap.
  unfold andThen.
  assert (Hr' : alter (assign_symbolizerUnits selection) r (heap w) !! r = Some p').
  { rewrite list_lookup_alter_eq. by rewrite Hr. }
  unfold updateValueFromStyle, andThen. cbn. rewrite Hr'. cbn.
  repeat split; try done.
  - apply length_alter.
  - intros r' Hne. by apply list_lookup_alter_ne.
Qed.

(** ** The format select (lines 185-188) *)

Lemma find_parser_first h selection before r after p :
  (forall r' q, r' ∈ before -> h !! r' = Some q -> title q <> selection) ->
  h !! r = Some p -> title p = selection ->
  find_parser h selection (before ++ r :: after) = Some r.
Proof.
  intros Hbefore Hr Ht. induction before as [|r0 before IH]; cbn.
  - rewrite Hr. by rewrite bool_decide_eq_true_2.
  - destruct (h !! r0) as [q|] eqn:Hq.
    + rewrite bool_decide_eq_false_2.
      * apply IH. intros r' q' Hin. apply Hbefore. by right.
      * apply (Hbefore r0 q); [by left|done].
    + apply IH. intros r' q' Hin. apply Hbefore. by right.
Qed.

Lemma find_parser_None h selection ps :
  (forall r p, r ∈ ps -> h !! r = Some p -> title p <> selection) ->
  find_parser h selection ps = None.
Proof.
  intros Hps. induction ps as [|r0 ps IH]; cbn; [done|].
  destruct (h !! r0) as [q|] eqn:Hq.
  - rewrite bool_decide_eq_false_2.
    + apply IH. intros r p Hin. apply Hps. by right.
    + apply (Hps r0 q); [by left|done].
  - apply IH. intros r p Hin. apply Hps. by right.
Qed.

Lemma find_parser_Some h selection ps r :
  find_parser h selection ps = Some r ->
  r ∈ ps /\ exists p, h !! r = Some p /\ title p = selection.
Proof.
  induction ps as [|r0 ps IH]; cbn; [done|].
  destruct (h !! r0) as [q|] eqn:Hq.
  - case_bool_decide as Ht.
    + intros [= <-]. split; [by left|]. eauto.
    + intros Hf. destruct (IH Hf) as [Hin Hp]. split; [by right|done].
  - intros Hf. destruct (IH Hf) as [Hin Hp]. split; [by right|done].
Qed.

(** What [onParserSelect] makes active is a parser of the supplied list
    that carries the selected title. *)
Lemma onParserSelect_registered w selection r :
  activeParser (state (onParserSelect selection w)) = Some r ->
  r ∈ parsers (props w) /\
  exists p, heap w !! r = Some p /\ title p = selection.
Proof. cbn. apply find_parser_Some. Qed.

(** C9, as the code has it. A title that no supplied parser carries makes
    no parser active; this covers the raw title as long as no supplied
    parser is titled so.  Nothing is raised: no fault is shown, no message
    is set and no call is made. *)
Theorem onParserSelect_absent_title w selection :
  (forall r p, r ∈ parsers (props w) -> heap w !! r = Some p ->
               title p <> selection) ->
  let w' := onParserSelect selection w in
  activeParser (state w') = None /\
  hasError (state w') = hasError (state w) /\
  invalidMessage (state w') = invalidMessage (state w) /\
  log w' = log w.
Proof.
  intros Habsent. cbn. by rewrite (find_parser_None _ _ _ Habsent).
Qed.

(** C10. [onParserSelect] makes the first parser of the supplied list that
    carries the selected title the active one, whatever follows it in the
    list, parsers with the same title included.  The raw title is not set
    apart: a supplied parser carrying it is found like any other. *)
Theorem onParserSelect_first_match w selection before r after p :
  parsers (props w) = before ++ r :: after ->
  (forall r' q, r' ∈ before -> heap w !! r' = Some q -> title q <> selection) ->
  heap w !! r = Some p ->
  title p = selection ->
  activeParser (state (onParserSelect selection w)) = Some r.
Proof.
  intros Hps Hbefore Hr Ht. cbn. rewrite Hps.
  by apply (find_parser_first _ _ _ _ _ p).
Qed.

(** ** Settling promises *)

(** After a handler that keeps the active parser, the render React may run
    touches neither the text nor the error state and makes no call. *)
Lemma rerender_quiet before w :
  synced before -> same_frame before w ->
  activeParser (state w) = activeParser (state before) ->
  let w' := rerender before w in
  value (state w') = value (state w) /\
  hasError (state w') = hasError (state w) /\
  invalidMessage (state w') = invalidMessage (state w) /\
  inflight w' = inflight w /\
  log w' = log w /\
  timers w' = timers w.
Proof.
  intros [Hs Hp] (Hprops & Hps & Hpp) Hap. unfold rerender.
  case_decide as Hst; [done|].
  rewrite render_of_synced; [done|]. split; congruence.
Qed.

Lemma settle_writeStyle_fulfilled w i res :
  synced w ->
  inflight w !! i = Some (AwaitWriteStyle (Fulfilled res)) ->
  has_errors (write_errors res) = false ->
  let w' := step (Settle i) w in
  synced w' /\
  value (state w') = write_output res /\
  inflight w' = delete i (inflight w).
Proof.
  intros Hw Hi Herr w'. split; [by apply step_synced|].
  unfold w'. cbn. rewrite Hi. unfold andThen. cbn. rewrite Herr.
  match goal with |- context [rerender w ?x] =>
    destruct (rerender_quiet w x Hw) as (-> & _ & _ & -> & _); by cbn end.
Qed.

(** Serialisations that report errors do raise the fault. *)
Lemma settle_writeStyle_errors w i res :
  synced w ->
  inflight w !! i = Some (AwaitWriteStyle (Fulfilled res)) ->
  has_errors (write_errors res) = true ->
  let w' := step (Settle i) w in
  hasError (state w') = true /\
  view w' = FaultView "An error occured in the CodeEditor UI." /\
  log w' = log w.
Proof.
  intros Hw Hi Herr w'.
  assert (Hh : hasError (state w') = true /\ log w' = log w).
  { unfold w'. cbn. rewrite Hi. unfold andThen. cbn. rewrite Herr.
    match goal with |- context [rerender w ?x] =>
      destruct (rerender_quiet w x Hw) as (_ & -> & _ & _ & -> & _); by cbn end. }
  destruct Hh as [Hh Hl]. repeat split; try done. unfold view. by rewrite Hh.
Qed.

(** A rejected [writeStyle] reaches no handler: the state stays as it is. *)
Lemma settle_writeStyle_rejected w i e :
  synced w ->
  inflight w !! i = Some (AwaitWriteStyle (Rejected e)) ->
  let w' := step (Settle i) w in
  state w' = state w /\
  log w' = log w ++ [UnhandledRejection e].
Proof.
  intros Hw Hi w'. unfold w'. cbn. rewrite Hi. unfold andThen, rerender. cbn.
  by rewrite decide_True.
Qed.



(** ** Edits and commits (lines 164-183 and 198-206) *)

(** C4, as the code has it. An edit reported by the editor surface changes
    no state cell (the text included), makes no call and awaits nothing: it
    cancels the timer [editTimeout] refers to and starts one that will
    commit the reported text after [delay].  The text becomes the reported
    one when a commit of it runs. *)
Theorem user_edit_is_deferred w v :
  let w' := step (UserEdit v) w in
  state w' = state w /\
  log w' = log w /\
  inflight w' = inflight w /\
  timers w' =
    (if hasError (state w) then timers w
     else timers (clearTimeout (editTimeout w) w)
            ++ [mkTimer (next_timer w) (now w + delay (props w))
                  (activeParser (state w)) v]) /\
  (forall ap w0, value (state (onChange ap v w0)) = v).
Proof.
  cbn. split_and!.
  - destruct (hasError (state w)); [done|apply handleOnChange_state].
  - destruct (hasError (state w)); [done|].
    unfold handleOnChange, andThen, clearTimeout. by destruct (editTimeout w).
  - destruct (hasError (state w)); [done|].
    unfold handleOnChange, andThen, clearTimeout. by destruct (editTimeout w).
  - destruct (hasError (state w)); [done|].
    unfold handleOnChange, andThen, clearTimeout. by destruct (editTimeout w).
  - intros ap w0. unfold onChange, andThen.
    destruct ap as [r|]; cbn; [destruct (heap w0 !! r)|destruct (JSON_parse v) as [parsed_|err_];
     [destruct (host_onStyleChange (Some parsed_))|]];
      done.
Qed.

(** The commit paths that fail without calling the host: a [JSON.parse]
    that throws, and a [readStyle] that rejects. *)
Lemma commit_raw_throw w v err :
  JSON_parse v = Thrown err ->
  let w' := onChange None v w in
  log w' = log w ++ [CallJSONParse v] /\
  value (state w') = v /\
  invalidMessage (state w') = Some (message err).
Proof. intros Hv. unfold onChange, andThen. cbn. by rewrite Hv. Qed.

Lemma commit_readStyle_rejected w err :
  let w' := resume_readStyle (Rejected err) w in
  log w' = log w /\
  value (state w') = value (state w) /\
  invalidMessage (state w') = Some (message err).
Proof. done. Qed.

(** The path that does call it: a [readStyle] that reports errors.  The
    joined messages are stored, unless the callback throws, in which case
    its message replaces them. *)
Lemma commit_readStyle_errors w res e errors :
  read_errors res = Some (e :: errors) ->
  let w' := resume_readStyle (Fulfilled res) w in
  log w' = log w ++ [CallOnStyleChange None] /\
  value (state w') = value (state w) /\
  invalidMessage (state w')
  = match host_onStyleChange None with
    | Returned _ => Some (join ", " (map message (e :: errors)))
    | Thrown err => Some (message err)
    end.
Proof.
  intros Hres. unfold resume_readStyle, catch_thrown, andThen. rewrite Hres.
  cbn. by destruct (host_onStyleChange None).
Qed.

(** ** The timer handle *)

Lemma filter_other_id (ts : list Timer) n :
  Forall (fun t => timer_id t < n) ts ->
  filter (fun x => timer_id x <> n) ts = ts.
Proof.
  induction 1 as [|t ts Ht _ IH]; [done|].
  rewrite filter_cons_True by lia. by rewrite IH.
Qed.

(** Within one render the handle works: the timer of the earlier edit is
    cancelled by the later one. *)
Lemma handleOnChange_resets_timer w v1 v2 :
  fresh_ids w ->
  timers (handleOnChange v2 (handleOnChange v1 w)) =
  timers (clearTimeout (editTimeout w) w)
    ++ [mkTimer (S (next_timer w)) (now w + delay (props w))
          (activeParser (state w)) v2].
Proof.
  intros Hfresh.
  assert (Hc : Forall (fun t => timer_id t < next_timer w)
                 (timers (clearTimeout (editTimeout w) w))).
  { unfold clearTimeout. destruct (editTimeout w); cbn; [|done].
    apply Forall_forall. intros t [_ Hin]%list_elem_of_filter.
    unfold fresh_ids in Hfresh. rewrite Forall_forall in Hfresh. by apply Hfresh. }
  unfold handleOnChange at 1. unfold andThen.
  set (w1 := handleOnChange v1 w).
  assert (Hw1 : editTimeout w1 = Some (next_timer w) /\
                timers w1 = timers (clearTimeout (editTimeout w) w)
                  ++ [mkTimer (next_timer w) (now w + delay (props w))
                        (activeParser (state w)) v1] /\
                next_timer w1 = S (next_timer w) /\ now w1 = now w /\
                props w1 = props w /\ state w1 = state w).
  { unfold w1, handleOnChange, andThen, clearTimeout.
    by destruct (editTimeout w). }
  destruct Hw1 as (He & Ht & Hn & Hnow & Hp & Hs). clearbody w1.
  rewrite He. cbn. rewrite Ht, Hn, Hnow, Hp, Hs.
  rewrite filter_app, (filter_other_id _ _ Hc).
  rewrite filter_cons_False, filter_nil by (cbn; lia).
  by rewrite app_nil_r.
Qed.

(** A render leaves the running timers alone and starts with an empty
    handle, so the next edit cancels nothing. *)
Lemma render_drops_handle w v :
  editTimeout (render w) = None /\
  timers (render w) = timers w /\
  timers (handleOnChange v (render w)) =
    timers w ++ [mkTimer (next_timer w) (now w + delay (props w))
                   (activeParser (state w)) v].
Proof.
  assert (Hr : editTimeout (render w) = None /\ timers (render w) = timers w /\
               next_timer (render w) = next_timer w /\ now (render w) = now w).
  { unfold render, usePrevious, usePrevious_effects, andThen. cbn. case_match; cbn; [|done].
    unfold updateValueFromStyle, andThen.
    destruct (activeParser (state w)) as [r|]; cbn; [destruct (heap w !! r)|];
      done. }
  destruct Hr as (He & Ht & Hn & Hnow). repeat split; try done.
  pose proof (render_props w) as Hp. pose proof (render_activeParser w) as Hap.
  set (w' := render w) in *. clearbody w'.
  unfold handleOnChange, andThen. rewrite He. cbn.
  by rewrite Ht, Hn, Hnow, Hp, Hap.
Qed.

End Properties.

(** * Further properties of the component *)

Section Further.

Context `{Platform}.

Infix ">>" := andThen (at level 62, right associativity).

(** ** What a render does to the world *)

Lemma render_timers w :
  timers (render w) = timers w /\ next_timer (render w) = next_timer w /\
  now (render w) = now w.
Proof.
  unfold render, usePrevious, usePrevious_effects, andThen. cbn.
  case_match; cbn; [|done].
  unfold updateValueFromStyle, andThen.
  destruct (activeParser (state w)) as [r|]; cbn; [destruct (heap w !! r)|]; done.
Qed.

(** The calls of a render are serialisation requests, one at most. *)
Lemma updateValueFromStyle_log ap s w :
  exists l, log (updateValueFromStyle ap s w) = log w ++ l /\
            Forall (fun c => is_serialize c = true) l.
Proof.
  unfold updateValueFromStyle, andThen.
  destruct ap as [r|]; cbn; [destruct (heap w !! r)|]; cbn.
  - eexists. split; [done|]. by repeat constructor.
  - exists []. by rewrite app_nil_r.
  - eexists. split; [done|]. by repeat constructor.
Qed.

Lemma render_log w :
  exists l, log (render w) = log w ++ l /\
            Forall (fun c => is_serialize c = true) l.
Proof.
  unfold render, usePrevious, usePrevious_effects, andThen. cbn.
  case_match; cbn.
  - match goal with |- context [updateValueFromStyle ?a ?s ?x] =>
      destruct (updateValueFromStyle_log a s x) as (l & Hl & Hs) end.
    exists l. by rewrite Hl.
  - exists []. by rewrite app_nil_r.
Qed.

Lemma rerender_log before w :
  exists l, log (rerender before w) = log w ++ l /\
            Forall (fun c => is_serialize c = true) l.
Proof.
  unfold rerender. case_decide; [|apply render_log].
  exists []. by rewrite app_nil_r.
Qed.

Lemma filter_serialize_only (f : call -> bool) (l : list call) :
  (forall c, is_serialize c = true -> f c = false) ->
  Forall (fun c => is_serialize c = true) l ->
  List.filter f l = [].
Proof.
  intros Hf. induction 1 as [|c l Hc _ IH]; cbn; [done|].
  by rewrite (Hf c Hc).
Qed.

Lemma rerender_activeParser before w :
  activeParser (state (rerender before w)) = activeParser (state w).
Proof. unfold rerender. case_decide; [done|apply render_activeParser]. Qed.

Lemma rerender_heap before w : heap (rerender before w) = heap w.
Proof. unfold rerender. case_decide; [done|apply render_heap]. Qed.

Lemma rerender_timers before w :
  timers (rerender before w) = timers w /\ now (rerender before w) = now w.
Proof.
  unfold rerender. case_decide; [done|].
  by destruct (render_timers w) as (-> & _ & ->).
Qed.

Lemma resume_activeParser p w :
  activeParser (state (resume p w)) = activeParser (state w).
Proof.
  destruct p as [[res|e]|[res|e]]; cbn; unfold andThen, catch_thrown; repeat case_match; done.
Qed.

Lemma resume_heap p w : heap (resume p w) = heap w.
Proof.
  destruct p as [[res|e]|[res|e]]; cbn; unfold andThen, catch_thrown; repeat case_match; done.
Qed.

Lemma onChange_heap ap v w : heap (onChange ap v w) = heap w.
Proof.
  unfold onChange, andThen.
  destruct ap as [r|]; cbn; [destruct (heap w !! r)|destruct (JSON_parse v) as [parsed_|err_];
     [destruct (host_onStyleChange (Some parsed_))|]]; done.
Qed.

Lemma onChange_timers ap v w :
  timers (onChange ap v w) = timers w /\ now (onChange ap v w) = now w.
Proof.
  unfold onChange, andThen.
  destruct ap as [r|]; cbn; [destruct (heap w !! r)|destruct (JSON_parse v) as [parsed_|err_];
     [destruct (host_onStyleChange (Some parsed_))|]]; done.
Qed.

Lemma handleOnChange_heap v w : heap (handleOnChange v w) = heap w.
Proof.
  unfold handleOnChange, andThen, clearTimeout. by destruct (editTimeout w).
Qed.

Lemma fire_activeParser t w :
  activeParser (state (fire t w)) = activeParser (state w).
Proof.
  unfold fire, andThen. by rewrite rerender_activeParser, onChange_activeParser.
Qed.

Lemma fire_heap t w : heap (fire t w) = heap w.
Proof. unfold fire, andThen. by rewrite rerender_heap, onChange_heap. Qed.

Lemma fire_due_activeParser n w :
  activeParser (state (fire_due n w)) = activeParser (state w).
Proof.
  revert w. induction n as [|n IH]; intros w; cbn; [done|].
  destruct (next_due w); [|done]. by rewrite IH, fire_activeParser.
Qed.

Lemma fire_due_heap n w : heap (fire_due n w) = heap w.
Proof.
  revert w. induction n as [|n IH]; intros w; cbn; [done|].
  destruct (next_due w); [|done]. by rewrite IH, fire_heap.
Qed.

(** ** Who changes the active parser, and the parser objects *)

(** X1. The active parser is changed by the format select alone: after any
    other event it is the one it was. *)
Theorem only_the_format_select_changes_the_parser e w :
  is_ParserSelect e = false ->
  activeParser (state (step e w)) = activeParser (state w).
Proof.
  intros He. destruct e; try discriminate He; cbn [step].
  - by rewrite render_activeParser.
  - destruct (hasError (state w)); [done|by rewrite handleOnChange_state].
  - case_match; [|done].
    rewrite rerender_activeParser. unfold onUnitSelect.
    destruct (activeParser (state w)) eqn:Hap; [|done].
    unfold andThen. by rewrite updateValueFromStyle_activeParser.
  - destruct (inflight w !! i); [|done].
    unfold andThen. by rewrite rerender_activeParser, resume_activeParser.
  - by rewrite fire_due_activeParser.
Qed.

Lemma onUnitSelect_identity selection w :
  length (heap (onUnitSelect selection w)) = length (heap w) /\
  map identity (heap (onUnitSelect selection w)) = map identity (heap w).
Proof.
  unfold onUnitSelect. destruct (activeParser (state w)) as [r|]; [|done].
  unfold andThen. rewrite updateValueFromStyle_heap. cbn.
  split; [apply length_alter|].
  generalize (heap w) as h. intros h. revert r.
  induction h as [|p h IH]; intros [|r]; cbn; try done.
  by rewrite <- (IH r).
Qed.

Lemma step_heap e w :
  is_UnitSelect e = false -> heap (step e w) = heap w.
Proof.
  intros He. destruct e; try discriminate He; cbn [step].
  - by rewrite render_heap.
  - destruct (hasError (state w)); [done|apply handleOnChange_heap].
  - destruct (hasError (state w)); [done|by rewrite rerender_heap].
  - destruct (inflight w !! i); [|done].
    unfold andThen. by rewrite rerender_heap, resume_heap.
  - by rewrite fire_due_heap.
Qed.

Lemma step_identity e w :
  map identity (heap (step e w)) = map identity (heap w).
Proof.
  destruct (is_UnitSelect e) eqn:He; [|by rewrite step_heap].
  destruct e; try discriminate He. cbn [step]. case_match; [|done].
  rewrite rerender_heap. apply onUnitSelect_identity.
Qed.

(** X2. Whatever happens, the host's parser objects stay what they are:
    after any run of events the store holds as many objects as before, each
    with the title, the version and the class it had.  (Only
    [symbolizerUnits] is ever assigned.) *)
Theorem parser_objects_keep_their_identity es w :
  map identity (heap (run es w)) = map identity (heap w).
Proof.
  revert w. induction es as [|e es IH]; intros w; [done|].
  change (run (e :: es) w) with (run es (step e w)).
  by rewrite IH, step_identity.
Qed.

(** X3. Every event but a unit selection leaves the store untouched,
    configuration included. *)
Theorem only_the_units_select_writes_to_the_store e w :
  is_UnitSelect e = false -> heap (step e w) = heap w.
Proof. apply step_heap. Qed.

(** ** The host callback *)

Lemma onParserSelect_log selection w : log (onParserSelect selection w) = log w.
Proof. done. Qed.

Lemma onUnitSelect_log selection w :
  exists l, log (onUnitSelect selection w) = log w ++ l /\
            Forall (fun c => is_serialize c = true) l.
Proof.
  unfold onUnitSelect. destruct (activeParser (state w)) as [r|].
  - unfold andThen.
    match goal with |- context [updateValueFromStyle ?a ?s ?x] =>
      destruct (updateValueFromStyle_log a s x) as (l & Hl & Hs) end.
    exists l. by rewrite Hl.
  - exists []. by rewrite app_nil_r.
Qed.

Lemma handleOnChange_log v w : log (handleOnChange v w) = log w.
Proof.
  unfold handleOnChange, andThen, clearTimeout. by destruct (editTimeout w).
Qed.

Lemma filter_log_serialize (f : call -> bool) (l0 l : list call) :
  (forall c, is_serialize c = true -> f c = false) ->
  Forall (fun c => is_serialize c = true) l ->
  List.filter f (l0 ++ l) = List.filter f l0.
Proof.
  intros Hf Hl.
  by rewrite List.filter_app, (filter_serialize_only f l Hf Hl), app_nil_r.
Qed.

Lemma serialize_not_onStyleChange c :
  is_serialize c = true -> is_onStyleChange c = false.
Proof. by destruct c. Qed.

Lemma serialize_not_deserialize c :
  is_serialize c = true -> is_deserialize c = false.
Proof. by destruct c. Qed.

(** X4. The host's [onStyleChange] is called from commits only: after an
    event that is neither the passing of time nor the settling of a
    [readStyle] promise (a render by the host, an edit, a selection of a
    format or of a unit, a [writeStyle] promise settling) the calls made to
    it are the ones made before. *)
Theorem only_commits_call_the_host e w :
  may_commit e w = false ->
  List.filter is_onStyleChange (log (step e w))
  = List.filter is_onStyleChange (log w).
Proof.
  intros He. destruct e; try discriminate He; cbn [step].
  - destruct (render_log (with_props p w)) as (l & -> & Hl).
    by apply filter_log_serialize; [apply serialize_not_onStyleChange|].
  - destruct (hasError (state w)); [done|by rewrite handleOnChange_log].
  - destruct (hasError (state w)); [done|].
    destruct (rerender_log w (onParserSelect selection w)) as (l & -> & Hl).
    by apply filter_log_serialize; [apply serialize_not_onStyleChange|].
  - case_match; [|done].
    destruct (rerender_log w (onUnitSelect selection w)) as (l & -> & Hl).
    destruct (onUnitSelect_log selection w) as (l' & -> & Hl').
    rewrite <- app_assoc.
    apply filter_log_serialize; [apply serialize_not_onStyleChange|].
    by apply Forall_app.
  - cbn in He. destruct (inflight w !! i) as [[o|o]|]; try done.
    match goal with |- context [rerender w ?x] =>
      destruct (rerender_log w x) as (l & -> & Hl) end.
    rewrite (filter_log_serialize _ _ _ serialize_not_onStyleChange Hl).
    unfold andThen. destruct o as [res|err]; cbn.
    + by destruct (has_errors (write_errors res)).
    + by rewrite List.filter_app, app_nil_r.
Qed.

(** ** Promises settling *)

Lemma resume_inflight p w : inflight (resume p w) = inflight w.
Proof.
  destruct p as [[res|e]|[res|e]]; cbn; unfold andThen, catch_thrown; repeat case_match; done.
Qed.

Lemma resume_log_no_requests p w :
  List.filter is_serialize (log (resume p w)) = List.filter is_serialize (log w) /\
  List.filter is_deserialize (log (resume p w)) = List.filter is_deserialize (log w).
Proof.
  destruct p as [[res|e]|[res|e]]; cbn; unfold andThen, onStyleChange, catch_thrown;
    repeat case_match; cbn; rewrite ?List.filter_app, ?app_nil_r; done.
Qed.

(** X5. In a world reached from a mount, a promise that settles is taken
    off the pending ones and nothing is requested in return: the render that
    follows the state change asks for no serialisation and no decoding, so
    settling cannot feed itself. *)
Theorem settling_requests_nothing w i :
  reachable w ->
  let w' := step (Settle i) w in
  inflight w' = delete i (inflight w) /\
  List.filter is_serialize (log w') = List.filter is_serialize (log w) /\
  List.filter is_deserialize (log w') = List.filter is_deserialize (log w).
Proof.
  intros Hw%reachable_synced. cbn [step].
  destruct (inflight w !! i) as [p|] eqn:Hi.
  - unfold andThen.
    assert (Hf : same_frame w (resume p (with_inflight (delete i) w))).
    { eapply same_frame_trans; [|apply resume_frame]. by repeat split. }
    destruct (rerender_quiet w _ Hw Hf) as (_ & _ & _ & -> & -> & _).
    { by rewrite resume_activeParser. }
    rewrite resume_inflight.
    destruct (resume_log_no_requests p (with_inflight (delete i) w)) as [-> ->].
    done.
  - repeat split. apply lookup_ge_None in Hi.
    by rewrite delete_take_drop, take_ge, drop_ge, app_nil_r by lia.
Qed.

(** ** Timers *)

Lemma same_clock_refl w : same_clock w w.
Proof. by repeat split. Qed.

Lemma same_clock_trans w1 w2 w3 :
  same_clock w1 w2 -> same_clock w2 w3 -> same_clock w1 w3.
Proof. intros (?&?&?) (?&?&?). repeat split; congruence. Qed.

Lemma updateValueFromStyle_clock ap s w :
  same_clock w (updateValueFromStyle ap s w).
Proof.
  unfold updateValueFromStyle, andThen.
  destruct ap as [r|]; cbn; [destruct (heap w !! r)|]; by repeat split.
Qed.

Lemma render_clock w : same_clock w (render w).
Proof.
  unfold render, usePrevious, usePrevious_effects, andThen. cbn.
  case_match; cbn; [|by repeat split].
  eapply same_clock_trans; [|apply updateValueFromStyle_clock]. by repeat split.
Qed.

Lemma rerender_clock before w : same_clock w (rerender before w).
Proof.
  unfold rerender. case_decide; [apply same_clock_refl|apply render_clock].
Qed.

Lemma onChange_clock ap v w : same_clock w (onChange ap v w).
Proof.
  unfold onChange, andThen.
  destruct ap as [r|]; cbn; [destruct (heap w !! r)|destruct (JSON_parse v) as [parsed_|err_];
     [destruct (host_onStyleChange (Some parsed_))|]];
    by repeat split.
Qed.

Lemma resume_clock p w : same_clock w (resume p w).
Proof.
  destruct p as [[res|e]|[res|e]]; cbn; unfold andThen, catch_thrown;
    repeat case_match; by repeat split.
Qed.

Lemma onUnitSelect_clock selection w : same_clock w (onUnitSelect selection w).
Proof.
  unfold onUnitSelect, andThen. destruct (activeParser (state w));
    [|apply same_clock_refl].
  eapply same_clock_trans; [|apply updateValueFromStyle_clock]. by repeat split.
Qed.

(** Running a timer takes it, and what shares its identifier, off the list. *)
Lemma fire_timers t w :
  timers (fire t w) = filter (fun x => timer_id x <> timer_id t) (timers w) /\
  next_timer (fire t w) = next_timer w /\
  now (fire t w) = now w.
Proof.
  unfold fire, andThen.
  match goal with |- context [rerender w ?x] =>
    destruct (rerender_clock w x) as (-> & -> & ->) end.
  match goal with |- context [onChange ?a ?v ?x] =>
    destruct (onChange_clock a v x) as (-> & -> & ->) end.
  done.
Qed.

Lemma earliest_elem (ts : list Timer) t : earliest ts = Some t -> t ∈ ts.
Proof.
  revert t. induction ts as [|t0 ts IH]; intros t; cbn; [done|].
  destruct (earliest ts) as [t'|].
  - case_match; intros [= <-]; [right; by apply IH|by left].
  - intros [= <-]. by left.
Qed.

Lemma earliest_None (ts : list Timer) : earliest ts = None -> ts = [].
Proof. destruct ts as [|t0 ts]; cbn; [done|]. by repeat case_match. Qed.

Lemma filter_ext_elem {A} (P Q : A -> Prop)
    `{!forall x, Decision (P x), !forall x, Decision (Q x)} (l : list A) :
  (forall x, x ∈ l -> (P x <-> Q x)) -> filter P l = filter Q l.
Proof.
  induction l as [|a l IH]; intros HPQ; [done|].
  rewrite !filter_cons.
  rewrite IH by (intros x Hx; apply HPQ; by right).
  apply decide_ext, HPQ. by left.
Qed.

Lemma filter_all {A} (P : A -> Prop) `{!forall x, Decision (P x)} (l : list A) :
  (forall x, x ∈ l -> P x) -> filter P l = l.
Proof.
  induction l as [|a l IH]; intros HP; [done|].
  rewrite filter_cons_True by (apply HP; by left).
  rewrite IH; [done|]. intros x Hx. apply HP. by right.
Qed.

Lemma filter_nothing {A} (P : A -> Prop) `{!forall x, Decision (P x)} (l : list A) :
  (forall x, ~ P x) -> filter P l = [].
Proof.
  intros HP. induction l as [|a l IH]; [done|].
  by rewrite filter_cons_False.
Qed.

Lemma none_due_keeps_all w :
  due_timers w = [] ->
  filter (fun t => ~ due t <= now w) (timers w) = timers w.
Proof.
  intros Hnone. apply filter_all. intros t Ht Hdue.
  assert (Hin : t ∈ due_timers w) by (by apply list_elem_of_filter).
  rewrite Hnone in Hin. by apply elem_of_nil in Hin.
Qed.

Lemma fire_due_timers n w :
  unique_ids w ->
  length (due_timers w) <= n ->
  timers (fire_due n w) = filter (fun t => ~ due t <= now w) (timers w) /\
  now (fire_due n w) = now w.
Proof.
  revert w. induction n as [|n IH]; intros w Huniq Hlen.
  - cbn. split; [|done]. symmetry. apply none_due_keeps_all.
    destruct (due_timers w); [done|cbn in Hlen; lia].
  - cbn. destruct (next_due w) as [t|] eqn:Hnext.
    + unfold next_due in Hnext. apply earliest_elem in Hnext.
      fold (due_timers w) in Hnext.
      pose proof Hnext as [Hdue Hin]%list_elem_of_filter.
      destruct (fire_timers t w) as (Ht & _ & Hnow).
      assert (Huniq' : unique_ids (fire t w)).
      { intros t1 t2. rewrite Ht.
        intros [_ H1]%list_elem_of_filter [_ H2]%list_elem_of_filter.
        by apply Huniq. }
      assert (Hdue' : due_timers (fire t w)
                      = filter (fun x => timer_id x <> timer_id t) (due_timers w)).
      { unfold due_timers. rewrite Ht, Hnow, !list_filter_filter.
        apply list_filter_iff. intros x. tauto. }
      assert (Hlen' : length (due_timers (fire t w)) <= n).
      { rewrite Hdue'.
        assert (length (filter (fun x => timer_id x <> timer_id t) (due_timers w))
                < length (due_timers w)); [|lia].
        apply (length_filter_lt _ _ t); [done|]. by intros Hne. }
      destruct (IH (fire t w) Huniq' Hlen') as [-> ->].
      split; [|done]. rewrite Ht, Hnow, list_filter_filter.
      apply filter_ext_elem. intros x Hx. split; [by intros [? _]|].
      intros Hnd. split; [done|]. intros Hid.
      apply Hnd. by rewrite (Huniq x t Hx Hin Hid).
    + unfold next_due in Hnext. apply earliest_None in Hnext.
      split; [|done]. symmetry. by apply none_due_keeps_all.
Qed.

(** Identifiers stay fresh and unique. *)
Definition timers_ok (w : World) : Prop := fresh_ids w /\ unique_ids w.

Lemma timers_ok_subset w w' :
  timers_ok w ->
  (forall t, t ∈ timers w' -> t ∈ timers w) ->
  next_timer w' = next_timer w ->
  timers_ok w'.
Proof.
  intros [Hf Hu] Hsub Hn. split.
  - unfold fresh_ids in *. rewrite Forall_forall in Hf. apply Forall_forall.
    intros t Ht. rewrite Hn. by apply Hf, Hsub.
  - intros t1 t2 H1 H2. apply Hu; by apply Hsub.
Qed.

Lemma timers_ok_clock w w' : timers_ok w -> same_clock w w' -> timers_ok w'.
Proof.
  intros Hok (Ht & Hn & _). apply (timers_ok_subset w); [done| |done].
  intros t. by rewrite Ht.
Qed.

Lemma clearTimeout_sub x w :
  (forall t, t ∈ timers (clearTimeout x w) -> t ∈ timers w) /\
  next_timer (clearTimeout x w) = next_timer w /\
  now (clearTimeout x w) = now w.
Proof.
  destruct x as [id|]; cbn; [|done]. split; [|done].
  by intros t [_ ?]%list_elem_of_filter.
Qed.

Lemma handleOnChange_timers v w :
  timers (handleOnChange v w)
  = timers (clearTimeout (editTimeout w) w)
      ++ [mkTimer (next_timer w) (now w + delay (props w))
            (activeParser (state w)) v] /\
  next_timer (handleOnChange v w) = S (next_timer w) /\
  editTimeout (handleOnChange v w) = Some (next_timer w) /\
  now (handleOnChange v w) = now w.
Proof.
  unfold handleOnChange, andThen, clearTimeout. by destruct (editTimeout w).
Qed.

Lemma handleOnChange_timers_ok v w : timers_ok w -> timers_ok (handleOnChange v w).
Proof.
  intros [Hf Hu]. destruct (handleOnChange_timers v w) as (Ht & Hn & _).
  destruct (clearTimeout_sub (editTimeout w) w) as (Hsub & _).
  unfold fresh_ids in Hf. rewrite Forall_forall in Hf.
  split.
  - unfold fresh_ids. rewrite Ht, Hn. apply Forall_app. split.
    + apply Forall_forall. intros t Hin. specialize (Hf t (Hsub t Hin)). lia.
    + apply Forall_singleton. cbn. lia.
  - intros t1 t2. rewrite Ht.
    intros [H1|H1%list_elem_of_singleton]%elem_of_app
           [H2|H2%list_elem_of_singleton]%elem_of_app Hid.
    + apply Hu; auto.
    + subst t2. cbn in Hid. specialize (Hf t1 (Hsub t1 H1)). lia.
    + subst t1. cbn in Hid. specialize (Hf t2 (Hsub t2 H2)). lia.
    + by subst.
Qed.

Lemma fire_timers_ok t w : timers_ok w -> timers_ok (fire t w).
Proof.
  intros Hok. destruct (fire_timers t w) as (Ht & Hn & _).
  apply (timers_ok_subset w); [done| |done].
  intros x. rewrite Ht. by intros [_ ?]%list_elem_of_filter.
Qed.

Lemma fire_due_timers_ok n w : timers_ok w -> timers_ok (fire_due n w).
Proof.
  revert w. induction n as [|n IH]; intros w Hok; cbn; [done|].
  destruct (next_due w); [|done]. by apply IH, fire_timers_ok.
Qed.

Lemma step_timers_ok e w : timers_ok w -> timers_ok (step e w).
Proof.
  intros Hok. destruct e; cbn [step].
  - apply (timers_ok_clock (with_props p w)); [done|apply render_clock].
  - destruct (hasError (state w)); [done|by apply handleOnChange_timers_ok].
  - destruct (hasError (state w)); [done|].
    apply (timers_ok_clock (onParserSelect selection w)); [done|apply rerender_clock].
  - case_match; [|done].
    eapply timers_ok_clock; [|apply rerender_clock].
    eapply timers_ok_clock; [done|apply onUnitSelect_clock].
  - destruct (inflight w !! i); [|done].
    eapply timers_ok_clock; [|apply rerender_clock]. unfold andThen.
    eapply timers_ok_clock; [|apply resume_clock]. done.
  - apply fire_due_timers_ok. done.
Qed.

Lemma reachable_timers_ok w : reachable w -> timers_ok w.
Proof.
  induction 1 as [h p|e w _ IH]; [|by apply step_timers_ok].
  unfold mount. eapply timers_ok_clock; [|apply render_clock].
  split; [by constructor|]. intros t1 t2 H1. by apply elem_of_nil in H1.
Qed.

Lemma onChange_deserialize ap v w :
  List.filter is_deserialize (log (onChange ap v w))
  = List.filter is_deserialize (log w) ++ commit_call (heap w) ap v.
Proof.
  unfold onChange, commit_call, onStyleChange, andThen.
  destruct ap as [r|]; cbn; [destruct (heap w !! r)|destruct (JSON_parse v) as [parsed_|err_];
     [destruct (host_onStyleChange (Some parsed_))|]];
    cbn; rewrite ?List.filter_app, ?app_nil_r; cbn; by rewrite ?app_nil_r.
Qed.

Lemma earliest_le (ts : list Timer) t :
  earliest ts = Some t -> forall x, x ∈ ts -> due t <= due x.
Proof.
  revert t. induction ts as [|t0 ts IH]; intros t; cbn [earliest]; [done|].
  destruct (earliest ts) as [t'|] eqn:He.
  - destruct (due t' <? due t0) eqn:Hlt; intros [= <-] x Hx.
    + apply Nat.ltb_lt in Hlt.
      apply elem_of_cons in Hx as [->|Hx]; [lia|by apply IH].
    + apply Nat.ltb_ge in Hlt.
      apply elem_of_cons in Hx as [->|Hx]; [lia|].
      specialize (IH t' eq_refl x Hx). lia.
  - intros [= <-] x Hx. apply earliest_None in He. subst ts.
    apply list_elem_of_singleton in Hx. by subst.
Qed.

(** Taking a timer off a list without repetitions takes off that one. *)
Lemma remove_by_id_Permutation (l : list Timer) t :
  NoDup l ->
  (forall t1 t2, t1 ∈ l -> t2 ∈ l -> timer_id t1 = timer_id t2 -> t1 = t2) ->
  t ∈ l ->
  l ≡ₚ t :: filter (fun x => timer_id x <> timer_id t) l.
Proof.
  induction l as [|x l IH]; intros Hnd Hu Hin; [by apply elem_of_nil in Hin|].
  apply NoDup_cons in Hnd as [Hx Hnd].
  destruct (decide (timer_id x = timer_id t)) as [Hid|Hid].
  - assert (x = t) as -> by (apply Hu; [by left|done|done]).
    rewrite filter_cons_False by (by intros ?).
    rewrite filter_all; [done|].
    intros y Hy Hidy. assert (y = t) by (apply Hu; [by right|by left|done]).
    by subst.
  - apply elem_of_cons in Hin as [->|Hin]; [done|].
    rewrite filter_cons_True by done.
    rewrite (IH Hnd) at 1; [apply perm_swap| |done].
    intros t1 t2 H1 H2. apply Hu; by right.
Qed.

Lemma fire_deserialize t w :
  List.filter is_deserialize (log (fire t w))
  = List.filter is_deserialize (log w)
      ++ commit_call (heap w) (captured_parser t) (text t).
Proof.
  unfold fire, andThen.
  match goal with |- context [rerender ?b ?x] =>
    destruct (rerender_log b x) as (lr & -> & Hlr) end.
  rewrite (filter_log_serialize _ _ _ serialize_not_deserialize Hlr).
  by rewrite onChange_deserialize.
Qed.

(** The timers that are due are run, each once, the earlier ones first. *)
Lemma fire_due_commits n w :
  NoDup (timers w) ->
  unique_ids w ->
  length (due_timers w) <= n ->
  exists order,
    order ≡ₚ due_timers w /\
    by_due order /\
    List.filter is_deserialize (log (fire_due n w))
    = List.filter is_deserialize (log w) ++ commit_calls_of (heap w) order.
Proof.
  revert w. induction n as [|n IH]; intros w Hnd Huniq Hlen.
  - exists []. destruct (due_timers w) eqn:Hd; [|cbn in Hlen; lia].
    split; [done|]. split; [constructor|]. cbn. by rewrite app_nil_r.
  - cbn [fire_due]. destruct (next_due w) as [t|] eqn:Hnext.
    + unfold next_due in Hnext. fold (due_timers w) in Hnext.
      pose proof (earliest_le _ _ Hnext) as Hle.
      apply earliest_elem in Hnext.
      pose proof Hnext as [Hdue Hin]%list_elem_of_filter.
      destruct (fire_timers t w) as (Ht & _ & Hnow).
      assert (Hnd' : NoDup (timers (fire t w)))
        by (rewrite Ht; by apply NoDup_filter).
      assert (Huniq' : unique_ids (fire t w)).
      { intros t1 t2. rewrite Ht.
        intros [_ H1]%list_elem_of_filter [_ H2]%list_elem_of_filter.
        by apply Huniq. }
      assert (Hdue' : due_timers (fire t w)
                      = filter (fun x => timer_id x <> timer_id t) (due_timers w)).
      { unfold due_timers. rewrite Ht, Hnow, !list_filter_filter.
        apply list_filter_iff. intros x. tauto. }
      assert (Hperm : due_timers w ≡ₚ t :: due_timers (fire t w)).
      { rewrite Hdue'. apply remove_by_id_Permutation; [|
          |done].
        - by apply NoDup_filter.
        - intros t1 t2 [_ H1]%list_elem_of_filter [_ H2]%list_elem_of_filter.
          by apply Huniq. }
      assert (Hlen' : length (due_timers (fire t w)) <= n).
      { apply Permutation_length in Hperm. cbn in Hperm. lia. }
      destruct (IH (fire t w) Hnd' Huniq' Hlen') as (order & Hp & Hs & Hl).
      exists (t :: order). split; [by rewrite Hperm, Hp|]. split.
      * constructor; [done|]. apply Forall_forall. intros x Hx.
        apply Hle. rewrite Hperm. right. by rewrite <- Hp.
      * rewrite Hl, fire_deserialize, fire_heap. cbn. by rewrite <- app_assoc.
    + unfold next_due in Hnext. apply earliest_None in Hnext.
      fold (due_timers w) in Hnext.
      exists []. rewrite Hnext. split; [done|]. split; [constructor|].
      cbn. by rewrite app_nil_r.
Qed.

Lemma step_nodup e w :
  fresh_ids w -> NoDup (timers w) -> NoDup (timers (step e w)).
Proof.
  intros Hf Hnd. destruct e; cbn [step].
  - by destruct (render_clock (with_props p w)) as (-> & _).
  - destruct (hasError (state w)); [done|].
    destruct (handleOnChange_timers v w) as (-> & _).
    destruct (clearTimeout_sub (editTimeout w) w) as (Hsub & _).
    unfold fresh_ids in Hf. rewrite Forall_forall in Hf.
    apply NoDup_app. split; [|split].
    + unfold clearTimeout. destruct (editTimeout w); cbn; [|done].
      by apply NoDup_filter.
    + intros x Hx ->%list_elem_of_singleton.
      specialize (Hf _ (Hsub _ Hx)). cbn in Hf. lia.
    + apply NoDup_singleton.
  - destruct (hasError (state w)); [done|].
    by destruct (rerender_clock w (onParserSelect selection w)) as (-> & _).
  - case_match; [|done].
    destruct (rerender_clock w (onUnitSelect selection w)) as (-> & _).
    by destruct (onUnitSelect_clock selection w) as (-> & _).
  - destruct (inflight w !! i) as [q|]; [|done]. unfold andThen.
    match goal with |- context [rerender w ?x] =>
      destruct (rerender_clock w x) as (-> & _) end.
    by destruct (resume_clock q (with_inflight (delete i) w)) as (-> & _).
  - generalize (length (timers (with_now (now w + ms) w))). intros n.
    assert (Hnd0 : NoDup (timers (with_now (now w + ms) w))) by done.
    revert Hnd0. generalize (with_now (now w + ms) w). clear.
    induction n as [|n IH]; intros w Hnd; cbn; [done|].
    destruct (next_due w) as [t|]; [|done]. apply IH.
    destruct (fire_timers t w) as (-> & _). by apply NoDup_filter.
Qed.

Lemma reachable_nodup w : reachable w -> NoDup (timers w).
Proof.
  induction 1 as [h p|e w Hw IH].
  - unfold mount. destruct (render_clock
      (mkWorld h p (mkState (defaultParser p) (Some false) (Some EmptyString)
                      (Some EmptyString) false) None None None [] 0 0 [] []))
      as (-> & _). constructor.
  - apply step_nodup; [|done]. by destruct (reachable_timers_ok w Hw).
Qed.

(** X6. When time passes in a world reached from a mount, exactly the
    timers that have become due are run and taken off the list.  Each of
    them makes its commit, once, the earlier ones first: the decoding calls
    made are those of the due timers, each with the parser and the text the
    timer carries.  A commit starts no timer and cancels none: the timers
    left are the ones that were not due, untouched and in their order, and
    none of them is due. *)
Theorem advance_runs_the_due_timers w ms :
  reachable w ->
  let w' := step (Advance ms) w in
  now w' = now w + ms /\
  timers w' = filter (fun t => ~ due t <= now w + ms) (timers w) /\
  due_timers w' = [] /\
  exists order,
    order ≡ₚ filter (fun t => due t <= now w + ms) (timers w) /\
    by_due order /\
    List.filter is_deserialize (log w')
    = List.filter is_deserialize (log w) ++ commit_calls_of (heap w) order.
Proof.
  intros Hw. destruct (reachable_timers_ok w Hw) as [_ Hu].
  pose proof (reachable_nodup w Hw) as Hnd. cbn [step].
  set (w0 := with_now (now w + ms) w).
  assert (Hlen : length (due_timers w0) <= length (timers w0))
    by apply length_filter.
  destruct (fire_due_timers _ w0 Hu Hlen) as [Ht Hn].
  split; [exact Hn|]. split; [exact Ht|]. split.
  - unfold due_timers. rewrite Ht, Hn, list_filter_filter.
    apply filter_nothing. tauto.
  - exact (fire_due_commits _ w0 Hnd Hu Hlen).
Qed.

(** ** A burst of edits within one render *)

Lemma advance_nothing_due w ms :
  due_timers (with_now (now w + ms) w) = [] ->
  step (Advance ms) w = with_now (now w + ms) w.
Proof.
  intros Hnone. cbn [step].
  destruct (length (timers (with_now (now w + ms) w))); [done|].
  cbn [fire_due]. unfold next_due. fold (due_timers (with_now (now w + ms) w)).
  by rewrite Hnone.
Qed.

Lemma edit_in_burst w0 w v :
  hasError (state w0) = false ->
  burst_inv w0 w ->
  let w1 := step (UserEdit v) w in
  state w1 = state w0 /\ props w1 = props w0 /\ heap w1 = heap w0 /\
  log w1 = log w0 /\ inflight w1 = inflight w0 /\
  timers w1 = [mkTimer (next_timer w) (now w + delay (props w0))
                 (activeParser (state w0)) v] /\
  editTimeout w1 = Some (next_timer w) /\
  now w1 = now w.
Proof.
  intros Herr (Hst & Hp & Hh & Hl & Hi & Ht). cbn [step].
  rewrite Hst, Herr.
  destruct (handleOnChange_timers v w) as (Htm & _ & He & Hnow).
  destruct (handleOnChange_frame v w) as (Hp' & _).
  assert (Hclear : timers (clearTimeout (editTimeout w) w) = []).
  { destruct Ht as [Ht|(t & Ht & He')].
    - unfold clearTimeout. destruct (editTimeout w); cbn; by rewrite Ht.
    - rewrite He'. cbn. rewrite Ht. by rewrite filter_cons_False by (by intros ?). }
  rewrite Hclear, Hst, Hp in Htm.
  rewrite handleOnChange_state, handleOnChange_heap, handleOnChange_log.
  repeat split; try done; try congruence.
  unfold handleOnChange, andThen, clearTimeout. by destruct (editTimeout w).
Qed.

Lemma burst_keeps_inv w0 l :
  hasError (state w0) = false ->
  Forall (fun vd => snd vd < delay (props w0)) l ->
  forall w, burst_inv w0 w -> burst_inv w0 (run (burst l) w).
Proof.
  intros Herr. induction 1 as [|[v d] l Hd _ IH]; intros w Hinv; [done|].
  change (run (burst ((v, d) :: l)) w)
    with (run (burst l) (step (Advance d) (step (UserEdit v) w))).
  apply IH. cbn in Hd.
  destruct (edit_in_burst w0 w v Herr Hinv) as (Hst & Hp & Hh & Hl & Hi & Ht & He & Hnow).
  set (w1 := step (UserEdit v) w) in *. clearbody w1.
  rewrite advance_nothing_due.
  - repeat split; try done. right. eexists. split; [exact Ht|]. exact He.
  - unfold due_timers. cbn. rewrite Ht.
    rewrite filter_cons_False; [done|]. cbn. lia.
Qed.

(** X7. Within one render the timer does debounce.  With the editor shown
    and no timer running, any number of edits, each followed by a pause
    shorter than [delay] and by nothing else, and then a last edit, leave the
    state and the log as they were and one timer running, for the last text.
    Once [delay] has passed that timer has run and is gone, and one decoding
    call has been made: of the last text, with the parser that was active. *)
Theorem burst_of_edits_commits_once w l v :
  hasError (state w) = false ->
  timers w = [] ->
  Forall (fun vd => snd vd < delay (props w)) l ->
  let w1 := run (burst l ++ [UserEdit v]) w in
  let w2 := step (Advance (delay (props w))) w1 in
  state w1 = state w /\
  log w1 = log w /\
  map text (timers w1) = [v] /\
  timers w2 = [] /\
  List.filter is_deserialize (log w2)
  = List.filter is_deserialize (log w)
      ++ commit_call (heap w) (activeParser (state w)) v.
Proof.
  intros Herr Ht Hl w1 w2.
  assert (Hinv0 : burst_inv w w) by (repeat split; by left).
  pose proof (burst_keeps_inv w l Herr Hl w Hinv0) as Hinv.
  assert (Hw1 : w1 = step (UserEdit v) (run (burst l) w)).
  { unfold w1, run. by rewrite fold_left_app. }
  destruct (edit_in_burst w _ v Herr Hinv)
    as (Hst & Hp & Hh & Hlog & Hi & Htm & He & Hnow).
  rewrite <- Hw1 in Hst, Hp, Hh, Hlog, Hi, Htm, He, Hnow.
  set (n := next_timer (run (burst l) w)) in *.
  set (t0 := now (run (burst l) w)) in *.
  clearbody w1 n t0. clear Hw1 Hinv.
  set (t := mkTimer n (t0 + delay (props w)) (activeParser (state w)) v) in *.
  assert (Hfire : w2 = fire t (with_now (now w1 + delay (props w)) w1)).
  { unfold w2. cbn [step]. cbn [timers with_now]. rewrite Htm.
    cbn [length fire_due]. unfold next_due. cbn [timers with_now now].
    rewrite Htm, filter_cons_True by (cbn; lia).
    rewrite filter_nil. cbn [earliest].
    destruct (fire_timers t (with_now (now w1 + delay (props w)) w1)) as (Hft & _).
    cbn [timers with_now] in Hft. rewrite Htm in Hft.
    rewrite filter_cons_False, filter_nil in Hft by (by intros ?).
    by destruct (length (timers (fire t (with_now (now w1 + delay (props w)) w1)))). }
  repeat split; try done.
  - by rewrite Htm.
  - rewrite Hfire.
    destruct (fire_timers t (with_now (now w1 + delay (props w)) w1)) as (-> & _).
    cbn [timers with_now]. rewrite Htm.
    by rewrite filter_cons_False, filter_nil by (by intros ?).
  - rewrite Hfire. unfold fire, andThen.
    match goal with |- context [rerender ?b ?x] =>
      destruct (rerender_log b x) as (lr & -> & Hlr) end.
    rewrite (filter_log_serialize _ _ _ serialize_not_deserialize Hlr).
    rewrite onChange_deserialize. cbn. by rewrite Hlog, Hh.
Qed.

(** ** The fault and the way out of it *)

Lemma updateValueFromStyle_spec ap s w :
  let w' := updateValueFromStyle ap s w in
  hasError (state w') = false /\
  log w' = log w ++ serialize_call (heap w) ap s /\
  value (state w') = text_after_update ap s (value (state w)) /\
  invalidMessage (state w') = invalidMessage (state w).
Proof.
  unfold updateValueFromStyle, serialize_call, text_after_update, andThen.
  destruct ap as [r|]; cbn; [destruct (heap w !! r)|]; cbn;
    rewrite ?app_nil_r; done.
Qed.

Lemma isEqual_style_true (a b : option Style) :
  isEqual_style a b = true -> a = b.
Proof. unfold isEqual_style. by intros ?%bool_decide_eq_true. Qed.

Lemma onChange_hasError ap v w :
  hasError (state (onChange ap v w)) = hasError (state w).
Proof.
  unfold onChange, andThen.
  destruct ap as [r|]; cbn; [destruct (heap w !! r)|destruct (JSON_parse v) as [parsed_|err_];
     [destruct (host_onStyleChange (Some parsed_))|]]; done.
Qed.

Lemma resume_keeps_fault p w :
  hasError (state w) = true -> hasError (state (resume p w)) = true.
Proof.
  destruct p as [[res|e]|[res|e]]; cbn; unfold andThen, catch_thrown; repeat case_match; done.
Qed.

Lemma fire_keeps_fault t w :
  synced w -> hasError (state w) = true -> hasError (state (fire t w)) = true.
Proof.
  intros Hw Herr. unfold fire, andThen.
  match goal with |- context [rerender w ?x] =>
    destruct (rerender_quiet w x Hw) as (_ & -> & _) end.
  - eapply same_frame_trans; [|apply onChange_frame]. by repeat split.
  - by rewrite onChange_activeParser.
  - by rewrite onChange_hasError.
Qed.

Lemma fire_due_keeps_fault n w :
  synced w -> hasError (state w) = true -> hasError (state (fire_due n w)) = true.
Proof.
  revert w. induction n as [|n IH]; intros w Hw Herr; cbn; [done|].
  destruct (next_due w); [|done].
  apply IH; [by apply fire_synced|by apply fire_keeps_fault].
Qed.

(** X8. The fault stays. In a world reached from a mount in which the
    fault is shown, it is still shown after every event other than the host
    rendering the component with a style that differs by value from the
    current one: edits and selections are not possible, and neither time
    passing, nor a promise settling (a successful serialisation included),
    nor a render with an equal style resets [hasError]. *)
Theorem fault_stays_until_the_style_changes e w :
  reachable w ->
  hasError (state w) = true ->
  brings_new_style e w = false ->
  hasError (state (step e w)) = true /\
  view (step e w) = FaultView "An error occured in the CodeEditor UI.".
Proof.
  intros Hw%reachable_synced Herr He.
  assert (Hstay : hasError (state (step e w)) = true).
  { destruct e; cbn [step].
    - cbn in He. apply negb_false_iff, isEqual_style_true in He.
      destruct Hw as [Hs Hp].
      rewrite render_of_synced; [done|]. split; cbn; congruence.
    - by rewrite Herr.
    - by rewrite Herr.
    - by rewrite Herr.
    - destruct (inflight w !! i) as [q|]; [|done]. unfold andThen.
      match goal with |- context [rerender w ?x] =>
        destruct (rerender_quiet w x Hw) as (_ & -> & _) end.
      + eapply same_frame_trans; [|apply resume_frame]. by repeat split.
      + by rewrite resume_activeParser.
      + by apply resume_keeps_fault.
    - apply fire_due_keeps_fault; [|done]. destruct Hw. by split. }
  split; [done|]. unfold view. by rewrite Hstay.
Qed.

(** X9. A render by the host with a style that differs by value from the
    current one goes through [updateValueFromStyle]: whatever the error state
    was, [hasError] is false afterwards, so the editor is shown; exactly the
    serialisation of the new style with the active parser is requested;
    without a parser the text is the printed style at once, with one it
    stays as it is until the promise settles. *)
Theorem new_style_is_serialized w p :
  reachable w ->
  style p <> style (props w) ->
  let w' := step (HostRender p) w in
  hasError (state w') = false /\
  log w' = log w ++ serialize_call (heap w) (activeParser (state w)) (style p) /\
  value (state w')
  = text_after_update (activeParser (state w)) (style p) (value (state w)).
Proof.
  intros [Hs Hp]%reachable_synced Hne. cbn [step].
  unfold render, usePrevious, usePrevious_effects, andThen. cbn.
  assert (Hneq : isEqual_style (previousStyleRef w) (style p) = false).
  { unfold isEqual_style. apply bool_decide_eq_false. congruence. }
  rewrite Hneq. cbn.
  match goal with |- context [updateValueFromStyle ?a ?s ?x] =>
    destruct (updateValueFromStyle_spec a s x) as (-> & -> & -> & _) end.
  done.
Qed.

(** ** Switching the format *)

(** X10. Selecting a format, with the editor shown in a world reached from
    a mount.  If the parser found is, by value, the active one (the same
    object or one with equal contents), nothing is requested and the text
    stays.  Otherwise the current style is serialised with the parser found,
    by exactly one call; when the raw format was selected the text is
    replaced by the printed style at once, and in both cases whatever the
    editor held, an uncommitted text included, is not decoded. *)
Theorem format_switch_serializes_the_style w selection :
  reachable w ->
  hasError (state w) = false ->
  let found := find_parser (heap w) selection (parsers (props w)) in
  let w' := step (ParserSelect selection) w in
  activeParser (state w') = found /\
  List.filter is_deserialize (log w') = List.filter is_deserialize (log w) /\
  if isEqual_parser (heap w) (activeParser (state w)) found
  then log w' = log w /\ value (state w') = value (state w)
  else log w' = log w ++ serialize_call (heap w) found (style (props w)) /\
       value (state w')
       = text_after_update found (style (props w)) (value (state w)).
Proof.
  intros [Hs Hp]%reachable_synced Herr found w'.
  assert (Hap : activeParser (state w') = found).
  { unfold w'. cbn [step]. rewrite Herr.
    by rewrite rerender_activeParser. }
  assert (Hde : List.filter is_deserialize (log w')
                = List.filter is_deserialize (log w)).
  { unfold w'. cbn [step]. rewrite Herr.
    destruct (rerender_log w (onParserSelect selection w)) as (l & -> & Hl).
    by rewrite (filter_log_serialize _ _ _ serialize_not_deserialize Hl). }
  split; [done|]. split; [done|].
  unfold w'. cbn [step]. rewrite Herr. unfold rerender.
  fold found.
  case_decide as Hst.
  - assert (Hsame : found = activeParser (state w)).
    { change found with (activeParser (state (onParserSelect selection w))).
      by rewrite Hst. }
    rewrite Hsame, isEqual_parser_refl. done.
  - unfold render, usePrevious, usePrevious_effects, andThen. cbn.
    fold found. rewrite Hs, Hp, isEqual_style_refl. cbn.
    destruct (isEqual_parser (heap w) (activeParser (state w)) found); cbn.
    + done.
    + match goal with |- context [updateValueFromStyle ?a ?s ?x] =>
        destruct (updateValueFromStyle_spec a s x) as (_ & -> & -> & _) end.
      done.
Qed.

(** ** The options of the format select *)

Lemma find_parser_None_inv h selection ps :
  find_parser h selection ps = None ->
  forall r p, r ∈ ps -> h !! r = Some p -> title p <> selection.
Proof.
  induction ps as [|r0 ps IH]; cbn; intros Hf r p Hin Hr.
  - by apply elem_of_nil in Hin.
  - destruct (h !! r0) as [q|] eqn:Hq.
    + case_bool_decide as Ht; [done|].
      apply elem_of_cons in Hin as [->|Hin]; [congruence|by apply (IH Hf r)].
    + apply elem_of_cons in Hin as [->|Hin]; [congruence|by apply (IH Hf r)].
Qed.

Lemma elem_of_parser_titles (h : list StyleParser) (ps : list ref) t :
  t ∈ omap (fun r => title <$> h !! r) ps <->
  exists r p, r ∈ ps /\ h !! r = Some p /\ title p = t.
Proof.
  rewrite list_elem_of_omap. split.
  - intros (r & Hin & Hr). destruct (h !! r) as [p|] eqn:Hp; [|done].
    injection Hr as <-. eauto.
  - intros (r & p & Hin & Hp & <-). exists r. by rewrite Hp.
Qed.

(** X11. The format select shows what was picked.  With the editor shown,
    selecting a title that is among the offered options makes the select's
    value that title; selecting any other title makes it the raw option. *)
Theorem format_select_shows_the_selection w t :
  hasError (state w) = false ->
  format_select (step (ParserSelect t) w)
  = if decide (t ∈ parserOptions w) then t else "GeoStyler Style".
Proof.
  intros Herr. cbn [step]. rewrite Herr.
  unfold format_select. rewrite rerender_activeParser, rerender_heap.
  cbn [onParserSelect setActiveParser with_state state activeParser heap].
  destruct (find_parser (heap w) t (parsers (props w))) as [r|] eqn:Hf.
  - destruct (find_parser_Some _ _ _ _ Hf) as (Hin & p & Hp & Ht).
    rewrite Hp. rewrite decide_True; [done|].
    unfold parserOptions. right. apply elem_of_parser_titles. eauto.
  - case_decide as Hopt; [|done].
    unfold parserOptions in Hopt. apply elem_of_cons in Hopt as [->|Hopt]; [done|].
    apply elem_of_parser_titles in Hopt as (r & p & Hin & Hp & Ht).
    by destruct (find_parser_None_inv _ _ _ Hf r p Hin Hp).
Qed.

(** ** SLD: the editor language and the download *)

Lemma lookup_title_identity (h h' : list StyleParser) (r : ref) :
  map identity h = map identity h' ->
  title <$> h !! r = title <$> h' !! r.
Proof.
  revert h' r. induction h as [|p h IH]; intros [|p' h'] r Hid;
    try discriminate Hid; [done|].
  injection Hid as Hp Hid. destruct r as [|r]; cbn.
  - unfold identity in Hp. congruence.
  - by apply IH.
Qed.

Lemma title_includes_SLD_identity h h' ap :
  map identity h = map identity h' ->
  title_includes_SLD h ap = title_includes_SLD h' ap.
Proof.
  intros Hid. destruct ap as [r|]; [|done]. cbn.
  pose proof (lookup_title_identity h h' r Hid) as Ht.
  destruct (h !! r), (h' !! r); cbn in *; congruence.
Qed.

Lemma render_sld w : sld_in_step (render w).
Proof.
  unfold sld_in_step. rewrite render_heap, render_activeParser.
  unfold render, usePrevious, usePrevious_effects, andThen. by cbn.
Qed.

Lemma rerender_sld before w :
  sld_in_step before ->
  map identity (heap w) = map identity (heap before) ->
  sld_in_step (rerender before w).
Proof.
  intros Hb Hid. unfold rerender. case_decide as Hst; [|apply render_sld].
  unfold sld_in_step in *. rewrite Hst, Hb.
  symmetry. by apply title_includes_SLD_identity.
Qed.

Lemma fire_sld t w : sld_in_step w -> sld_in_step (fire t w).
Proof.
  intros Hw. unfold fire, andThen. apply rerender_sld; [done|].
  by rewrite onChange_heap.
Qed.

Lemma fire_due_sld n w : sld_in_step w -> sld_in_step (fire_due n w).
Proof.
  revert w. induction n as [|n IH]; intros w Hw; cbn; [done|].
  destruct (next_due w); [|done]. by apply IH, fire_sld.
Qed.

Lemma step_sld e w : sld_in_step w -> sld_in_step (step e w).
Proof.
  intros Hw. destruct e; cbn [step].
  - apply render_sld.
  - destruct (hasError (state w)); [done|].
    unfold sld_in_step. by rewrite handleOnChange_state, handleOnChange_heap.
  - destruct (hasError (state w)); [done|]. by apply rerender_sld.
  - case_match; [|done]. apply rerender_sld; [done|].
    apply onUnitSelect_identity.
  - destruct (inflight w !! i); [|done]. unfold andThen.
    apply rerender_sld; [done|]. by rewrite resume_heap.
  - by apply fire_due_sld.
Qed.

Lemma reachable_sld w : reachable w -> sld_in_step w.
Proof.
  induction 1 as [h p|e w _ IH]; [apply render_sld|by apply step_sld].
Qed.

(** X12. In a world reached from a mount the editor's language is [xml]
    exactly when a parser is active whose title contains [SLD]; in every
    other case, the raw format included, it is [json]. *)
Theorem language_is_xml_for_SLD_titles w :
  reachable w ->
  editor_language w
  = match activeParser (state w) with
    | Some r => match heap w !! r with
                | Some p => if includes "SLD" (title p) then "xml" else "json"
                | None => "json"
                end
    | None => "json"
    end.
Proof.
  intros Hw%reachable_sld. unfold editor_language. rewrite Hw.
  unfold title_includes_SLD.
  destruct (activeParser (state w)) as [r|]; [|done].
  by destruct (heap w !! r).
Qed.

Section Download.

Variable style_name : Style -> string.

(** X13. The download, in a world reached from a mount.  Without a style
    nothing is saved.  With one, the blob holds the text of the editor; for
    an active parser whose title contains [SLD] the type is XML and the file
    is named after the style with [.sld] appended; in every other case the
    type is JSON and the file name is the bare style name, without an
    extension. *)
Theorem download_names_the_file_after_the_style w :
  reachable w ->
  onDownloadButtonClick style_name w
  = match style (props w) with
    | None => None
    | Some s =>
        if truthy (title_includes_SLD (heap w) (activeParser (state w)))
        then Some (mkDownload (value (state w)) "text/xml;charset=utf-8"
                     (style_name s ++ ".sld")%string)
        else Some (mkDownload (value (state w))
                     "application/json;charset=utf-8" (style_name s))
    end.
Proof.
  intros Hw%reachable_sld. unfold onDownloadButtonClick. by rewrite Hw.
Qed.

End Download.

(** ** The units select *)

(** X17. In a world reached from a mount the units select is offered
    exactly when a parser is active whose title contains [SLD] and whose
    [sldVersion] is not [1.0.0]; a parser with such a title and no
    [sldVersion] at all is offered it too. *)
Theorem units_select_is_offered_for_SLD w :
  reachable w ->
  parserHasUnitSelect w
  = match activeParser (state w) with
    | Some r => match heap w !! r with
                | Some p => includes "SLD" (title p)
                            && negb (bool_decide (sldVersion p = Some "1.0.0"))
                | None => false
                end
    | None => false
    end.
Proof.
  intros Hw%reachable_sld. unfold parserHasUnitSelect. rewrite Hw.
  unfold title_includes_SLD.
  destruct (activeParser (state w)) as [r|]; [|done].
  by destruct (heap w !! r).
Qed.

(** ** Commits *)

(** X18. A commit that succeeds.  In a world reached from a mount, when a
    [readStyle] promise settles fulfilled with no errors (an [errors] member
    that is missing counts as none), [onStyleChange] is called once, with the
    [output] as it is, and the text, the error state and the active parser
    stay.  If the callback returns, no state cell changes at all; if it
    throws, the [catch] stores its message in [invalidMessage]. *)
Theorem successful_commit_hands_over_the_output w i res :
  reachable w ->
  inflight w !! i = Some (AwaitReadStyle (Fulfilled res)) ->
  default [] (read_errors res) = [] ->
  let w' := step (Settle i) w in
  log w' = log w ++ [CallOnStyleChange (read_output res)] /\
  inflight w' = delete i (inflight w) /\
  value (state w') = value (state w) /\
  hasError (state w') = hasError (state w) /\
  activeParser (state w') = activeParser (state w) /\
  match host_onStyleChange (read_output res) with
  | Returned _ => state w' = state w
  | Thrown err => invalidMessage (state w') = Some (message err)
  end.
Proof.
  intros Hw%reachable_synced Hi Herr. cbn [step]. rewrite Hi. unfold andThen.
  set (w1 := resume (AwaitReadStyle (Fulfilled res)) (with_inflight (delete i) w)).
  assert (Hw1 : log w1 = log w ++ [CallOnStyleChange (read_output res)] /\
                inflight w1 = delete i (inflight w) /\
                value (state w1) = value (state w) /\
                hasError (state w1) = hasError (state w) /\
                activeParser (state w1) = activeParser (state w) /\
                match host_onStyleChange (read_output res) with
                | Returned _ => state w1 = state w
                | Thrown err => invalidMessage (state w1) = Some (message err)
                end).
  { unfold w1. cbn. rewrite Herr. cbn. unfold andThen, catch_thrown. cbn.
    by destruct (host_onStyleChange (read_output res)). }
  destruct Hw1 as (Hl & Hq & Hv & He & Hap & Hm).
  assert (Hf : same_frame w w1).
  { unfold w1. eapply same_frame_trans; [|apply resume_frame]. by repeat split. }
  destruct (rerender_quiet w w1 Hw Hf Hap) as (Hv' & He' & Hm' & Hq' & Hl' & _).
  rewrite Hv', He', Hq', Hl', rerender_activeParser.
  repeat split; try done.
  destruct (host_onStyleChange (read_output res)) as [u|err].
  - unfold rerender. by rewrite decide_True.
  - by rewrite Hm'.
Qed.

Lemma onChange_value ap v w : value (state (onChange ap v w)) = v.
Proof.
  unfold onChange, andThen.
  destruct ap as [r|]; cbn; [destruct (heap w !! r)|destruct (JSON_parse v) as [parsed_|err_];
     [destruct (host_onStyleChange (Some parsed_))|]]; done.
Qed.

Lemma single_timer_fires w t ms :
  timers w = [t] ->
  due t <= now w + ms ->
  step (Advance ms) w = fire t (with_now (now w + ms) w).
Proof.
  intros Ht Hdue. cbn [step]. cbn [timers with_now]. rewrite Ht.
  cbn [length fire_due]. unfold next_due. cbn [timers with_now now].
  rewrite Ht, filter_cons_True by done.
  rewrite filter_nil. cbn [earliest].
  destruct (fire_timers t (with_now (now w + ms) w)) as (Hft & _).
  cbn [timers with_now] in Hft. rewrite Ht in Hft.
  rewrite filter_cons_False, filter_nil in Hft by (by intros ?).
  by destruct (length (timers (fire t (with_now (now w + ms) w)))).
Qed.

Lemma external_change_keeps_timers e w :
  is_external_change e = true ->
  same_clock w (step e w) /\
  heap (step e w) = heap w /\
  List.filter is_deserialize (log (step e w)) = List.filter is_deserialize (log w).
Proof.
  intros He. destruct e; try discriminate He; cbn [step].
  - split; [apply (render_clock (with_props p w))|].
    split; [by rewrite render_heap|].
    destruct (render_log (with_props p w)) as (l & -> & Hl).
    by rewrite (filter_log_serialize _ _ _ serialize_not_deserialize Hl).
  - destruct (hasError (state w)); [by repeat split|].
    split; [apply (rerender_clock w (onParserSelect selection w))|].
    split; [by rewrite rerender_heap|].
    destruct (rerender_log w (onParserSelect selection w)) as (l & -> & Hl).
    by rewrite (filter_log_serialize _ _ _ serialize_not_deserialize Hl).
Qed.

(** X19. A pending edit outlives an external change.  In a world reached
    from a mount, with the editor shown and no timer running: the user
    edits, then the host renders the component (with whatever props) or the
    user selects a format, and [delay] passes.  The commit of the edit still
    runs: the text of the edit is put into the editor, over what the change
    may have put there, and it is decoded with the parser that was active
    when the edit was made, not with the one active now. *)
Theorem pending_edit_outlives_an_external_change w v e :
  reachable w ->
  hasError (state w) = false ->
  timers w = [] ->
  is_external_change e = true ->
  let w' := run [UserEdit v; e; Advance (delay (props w))] w in
  value (state w') = v /\
  timers w' = [] /\
  List.filter is_deserialize (log w')
  = List.filter is_deserialize (log w)
      ++ commit_call (heap w) (activeParser (state w)) v.
Proof.
  intros Hw Herr Ht He.
  change (run [UserEdit v; e; Advance (delay (props w))] w)
    with (step (Advance (delay (props w))) (step e (step (UserEdit v) w))).
  assert (Hinv : burst_inv w w) by (repeat split; by left).
  destruct (edit_in_burst w w v Herr Hinv)
    as (Hst & Hp & Hh & Hlog & Hi & Htm & _ & Hnow).
  assert (Hs1 : synced (step (UserEdit v) w))
    by (apply step_synced; by apply reachable_synced).
  set (w1 := step (UserEdit v) w) in *. clearbody w1.
  destruct (external_change_keeps_timers e w1 He) as ((Ht2 & _ & Hn2) & Hh2 & Hl2).
  assert (Hs2 : synced (step e w1)) by (by apply step_synced).
  set (w2 := step e w1) in *. clearbody w2.
  set (t := mkTimer (next_timer w) (now w + delay (props w))
              (activeParser (state w)) v) in *.
  rewrite (single_timer_fires w2 t) by (rewrite ?Ht2, ?Hn2, ?Hnow; done).
  destruct (fire_timers t (with_now (now w2 + delay (props w)) w2)) as (Hft & _).
  split; [|split].
  - unfold fire, andThen.
    match goal with |- context [rerender ?b ?x] =>
      destruct (rerender_quiet b x) as (-> & _) end.
    + destruct Hs2. by split.
    + eapply same_frame_trans; [|apply onChange_frame]. by repeat split.
    + by rewrite onChange_activeParser.
    + apply onChange_value.
  - rewrite Hft. cbn [timers with_now]. rewrite Ht2, Htm.
    by rewrite filter_cons_False, filter_nil by (by intros ?).
  - unfold fire, andThen.
    match goal with |- context [rerender ?b ?x] =>
      destruct (rerender_log b x) as (lr & -> & Hlr) end.
    rewrite (filter_log_serialize _ _ _ serialize_not_deserialize Hlr).
    rewrite onChange_deserialize. cbn. by rewrite Hl2, Hlog, Hh2, Hh.
Qed.

(** ** Mounting *)

(** X20. What mounting requests.  Mounted with neither a style nor a
    default parser the component requests nothing and shows an empty text.
    In every other case it goes through [updateValueFromStyle] once, with the
    default parser and the style as given, a missing style included. *)
Theorem mount_requests_one_serialization h p :
  let w := mount h p in
  hasError (state w) = false /\
  activeParser (state w) = defaultParser p /\
  match style p, defaultParser p with
  | None, None => log w = [] /\ value (state w) = Some EmptyString
  | _, _ => log w = serialize_call h (defaultParser p) (style p) /\
            value (state w)
            = text_after_update (defaultParser p) (style p) (Some EmptyString)
  end.
Proof.
  unfold mount, render, usePrevious, usePrevious_effects, andThen.
  cbn -[updateValueFromStyle]. unfold isEqual_style.
  destruct (style p) as [s|] eqn:Hs, (defaultParser p) as [r|] eqn:Hd;
    cbn -[updateValueFromStyle];
    rewrite ?bool_decide_eq_true_2, ?bool_decide_eq_false_2 by done;
    cbn -[updateValueFromStyle];
    try (match goal with |- context [updateValueFromStyle ?a ?s ?x] =>
           destruct (updateValueFromStyle_spec a s x) as (-> & -> & -> & _);
           rewrite (updateValueFromStyle_activeParser a s x)
         end);
    done.
Qed.

(** ** Raw mode (lines 144-145 and 176-182) *)






End Further.

(** * Runs against the concrete host *)

#[local] Existing Instance Demo.platform.

Ltac absent_title :=
  let r := fresh "r" in
  let p := fresh "p" in
  let Hin := fresh "Hin" in
  let Hp := fresh "Hp" in
  let E := fresh "E" in
  intros r p Hin Hp;
  repeat (apply elem_of_cons in Hin as [->|Hin]);
  try (by apply elem_of_nil in Hin);
  vm_compute in Hp; injection Hp as <-; intros E; vm_compute in E; discriminate E.

(** Scenario A: mounted without parsers on [{name: "x"}], the component
    shows the printed style; an edit to an invalid text, once the delay has
    passed, leaves that text in place with the decoder's message and does not
    call the host. *)
Example scenario_A :
  let w0 := mount Demo.objects Demo.props_raw in
  let w1 := run [UserEdit (Some "{"); Advance 500] w0 in
  value (state w0) = Some (Demo.stringify Demo.style_x 2) /\
  value (state w1) = Some "{" /\
  invalidMessage (state w1) = Some "Unexpected token in JSON" /\
  count_calls is_onStyleChange (log w1) = 0.
Proof. vm_compute. done. Qed.

(** Scenario B: with the parser [Fmt] active the style is shown as [FMT:x];
    an edit to [FMT:y] is handed to the host once the delay has passed. *)
Example scenario_B :
  let w0 := run [Settle 0] (mount Demo.objects Demo.props_fmt) in
  let w1 := run [UserEdit (Some "FMT:y"); Advance 500; Settle 0] w0 in
  value (state w0) = Some "FMT:x" /\
  List.filter is_onStyleChange (log w1) = [CallOnStyleChange (Some Demo.style_y)].
Proof. vm_compute. done. Qed.

(** Scenario C: switching the parser with an invalid text in the editor
    replaces that text by the style as the new parser writes it. *)
Example scenario_C :
  let w0 := mount Demo.objects Demo.props_choice in
  let w1 := run [UserEdit (Some "{"); Advance 500] w0 in
  let w2 := run [ParserSelect "Fmt"; Settle 0] w1 in
  value (state w1) = Some "{" /\
  value (state w2) = Some "FMT:x".
Proof. vm_compute. done. Qed.

(** ** Commits that fail *)

(** C1. The parser [Fmt] is active and the user's text is [oops], which its
    [readStyle] reports in [errors].  When the commit has run, the text is
    kept and the messages are joined into [invalidMessage], but
    [onStyleChange] has been called, with [undefined]. *)
Theorem commit_with_reported_errors_calls_onStyleChange :
  let w0 := run [Settle 0] (mount Demo.objects Demo.props_fmt) in
  let w := run [UserEdit (Some "oops"); Advance 500; Settle 0] w0 in
  readStyle Demo.fmt (Some "oops")
    = Fulfilled (mkRead None (Some [mkError "missing FMT header";
                                    mkError "no style found"])) /\
  value (state w) = Some "oops" /\
  invalidMessage (state w) = Some "missing FMT header, no style found" /\
  count_calls is_onStyleChange (log w0) = 0 /\
  count_calls is_onStyleChange (log w) = 1 /\
  log w = log w0 ++ [CallReadStyle 0 Demo.fmt (Some "oops");
                     CallOnStyleChange None].
Proof. vm_compute. done. Qed.

(** ** Serialisations that fail *)

(** C2. The style is shown as [FMT:x]; the user then selects the parser
    [Broken], whose [writeStyle] rejects.  When that promise has settled,
    [hasError] is still false and the editor is still shown, with the old
    text under the new format; the rejection was handled by nobody. *)
Theorem rejected_writeStyle_raises_no_fault :
  let w0 := run [Settle 0] (mount Demo.objects Demo.props_fmt) in
  let w := run [ParserSelect "Broken"; Settle 0] w0 in
  writeStyle Demo.broken (Some Demo.style_x)
    = Rejected (mkError "writeStyle failed") /\
  activeParser (state w) = Some 1 /\
  inflight w = [] /\
  hasError (state w) = false /\
  view w = EditorView "Broken" false (Some "FMT:x") "json" (Some EmptyString) /\
  log w = log w0 ++ [CallWriteStyle 1 Demo.broken (Some Demo.style_x);
                     UnhandledRejection (mkError "writeStyle failed")].
Proof. vm_compute. done. Qed.

(** A [writeStyle] that reports errors, for comparison, does replace the
    editor by the fault. *)
Example reported_write_errors_raise_the_fault :
  let w0 := mount Demo.objects
              (mkProps (Some 5) None (Some Demo.style_x) (Some [5])) in
  view (run [Settle 0] w0) = FaultView "An error occured in the CodeEditor UI.".
Proof. vm_compute. done. Qed.

(** ** Two serialisations in flight *)



(** A result with errors that settles last is not applied: the text is the
    earlier one, under the fault. *)
Example erroneous_last_result_is_not_applied :
  let w := run [ParserSelect "Picky"] (mount Demo.objects Demo.props_fmt) in
  let w' := run [Settle 0; Settle 0] w in
  inflight w = [AwaitWriteStyle (writeStyle Demo.fmt (Some Demo.style_x));
                AwaitWriteStyle (writeStyle Demo.picky (Some Demo.style_x))] /\
  value (state w') = Some "FMT:x" /\
  hasError (state w') = true.
Proof. vm_compute. done. Qed.

(** ** Edits *)

(** C4 fails as stated. The editor shows [FMT:x] and the user types
    [FMT:y]: the text cell still holds [FMT:x]. *)
Lemma edit_leaves_text_cell :
  let w0 := run [Settle 0] (mount Demo.objects Demo.props_fmt) in
  let w := step (UserEdit (Some "FMT:y")) w0 in
  value (state w0) = Some "FMT:x" /\
  value (state w) = Some "FMT:x" /\
  value (state w) <> Some "FMT:y".
Proof. vm_compute. repeat split; done. Qed.

(** C5. Two edits 200 ms apart, with the default delay of 500 ms; in
    between, the host renders the component with another style.  The second
    edit finds an empty handle, both timers run, and two commits are made:
    one of the first text and one of the last. *)
Theorem edits_across_a_render_commit_twice :
  let w0 := run [Settle 0] (mount Demo.objects Demo.props_fmt) in
  let w1 := run [UserEdit (Some "FMT:a"); Advance 100;
                 HostRender Demo.props_fmt_y; Advance 100] w0 in
  let w2 := step (UserEdit (Some "FMT:ab")) w1 in
  let w := step (Advance 500) w2 in
  delay (props w1) = 500 /\
  now w1 = now w0 + 200 /\
  editTimeout w1 = None /\
  map text (timers w2) = [Some "FMT:a"; Some "FMT:ab"] /\
  count_calls is_deserialize (log w0) = 0 /\
  List.filter is_deserialize (log w)
    = [CallReadStyle 0 Demo.fmt (Some "FMT:a");
       CallReadStyle 0 Demo.fmt (Some "FMT:ab")].
Proof. vm_compute. done. Qed.

(** The render need not come from the host: here the serialisation asked
    for at mount settles between the two edits. *)
Example edits_across_a_settled_serialize :
  let w := run [UserEdit (Some "FMT:a"); Advance 100; Settle 0; Advance 100;
                UserEdit (Some "FMT:ab"); Advance 500]
             (mount Demo.objects Demo.props_fmt) in
  List.filter is_deserialize (log w)
    = [CallReadStyle 0 Demo.fmt (Some "FMT:a");
       CallReadStyle 0 Demo.fmt (Some "FMT:ab")].
Proof. vm_compute. done. Qed.

(** Without the render in between, the same two edits make one commit. *)
Example edits_within_a_render_commit_once :
  let w0 := run [Settle 0] (mount Demo.objects Demo.props_fmt) in
  let w := run [UserEdit (Some "FMT:a"); Advance 200;
                UserEdit (Some "FMT:ab"); Advance 500] w0 in
  List.filter is_deserialize (log w)
    = [CallReadStyle 0 Demo.fmt (Some "FMT:ab")].
Proof. vm_compute. done. Qed.

(** ** Witnesses *)

(** The second change names another object with the contents of [Fmt]. *)
Lemma external_change_twice_serializes_once_witness :
  let w := mount Demo.objects Demo.props_fmt in
  let w1 := external_change (Some Demo.style_y) (Some 0) w in
  let w2 := external_change (Some Demo.style_y) (Some 6) w1 in
  isEqual_parser (heap w) (Some 0) (Some 6) = true /\
  log w2 = log w1.
Proof.
  intros w w1 w2. split; [reflexivity|].
  apply (external_change_twice_serializes_once w (Some Demo.style_y) (Some 0) (Some 6)).
  reflexivity.
Defined.

(** The SLD parser is active and the user picks the unit [m]. *)
Lemma onUnitSelect_mutates_in_place_witness :
  let w := run [Settle 0] (mount Demo.objects Demo.props_sld) in
  activeParser (state w) = Some 2 /\
  heap w !! 2 = Some Demo.sld /\
  heap (onUnitSelect "m" w) !! 2 = Some (assign_symbolizerUnits "m" Demo.sld).
Proof.
  intros w. split; [reflexivity|]. split; [reflexivity|].
  apply (onUnitSelect_mutates_in_place w "m" 2 Demo.sld); reflexivity.
Defined.

(** The units select on an SLD parser: the host's object carries the
    selection afterwards and the style is written again with it. *)
Example unit_select_reserializes :
  let w0 := run [Settle 0] (mount Demo.objects Demo.props_sld) in
  let w := run [UnitSelect "m"; Settle 0] w0 in
  parserHasUnitSelect w0 = true /\
  value (state w0) = Some "FMT:x" /\
  symbolizerUnits <$> heap w !! 2 = Some (Some "m") /\
  value (state w) = Some "FMT(m):x".
Proof. vm_compute. done. Qed.

(** C9 fails as stated. A supplied parser is titled like the raw option;
    selecting that title makes it the active parser. *)
Lemma raw_title_selects_a_parser :
  let w := step (ParserSelect "GeoStyler Style")
             (mount Demo.objects Demo.props_shadow) in
  activeParser (state w) = Some 4 /\
  activeParser (state w) <> None.
Proof. vm_compute. split; done. Qed.

(** None of the supplied parsers carries the raw title. *)
Lemma onParserSelect_absent_title_witness :
  let w := mount Demo.objects Demo.props_fmt in
  (forall r p, r ∈ parsers (props w) -> heap w !! r = Some p ->
               title p <> "GeoStyler Style") /\
  activeParser (state (onParserSelect "GeoStyler Style" w)) = None.
Proof.
  intros w.
  assert (Habsent : forall r p, r ∈ parsers (props w) -> heap w !! r = Some p ->
                                title p <> "GeoStyler Style") by absent_title.
  split; [exact Habsent|].
  apply (onParserSelect_absent_title w "GeoStyler Style" Habsent).
Defined.

(** Two of the supplied parsers are titled [Fmt]; the first one is taken. *)
Lemma onParserSelect_first_match_witness :
  let w := mount Demo.objects Demo.props_fmt in
  parsers (props w) = [1] ++ 0 :: [3; 5] /\
  title Demo.fmt = title Demo.fmt_twin /\
  activeParser (state (onParserSelect "Fmt" w)) = Some 0.
Proof.
  intros w. split; [reflexivity|]. split; [reflexivity|].
  apply (onParserSelect_first_match w "Fmt" [1] 0 [3; 5] Demo.fmt).
  - reflexivity.
  - absent_title.
  - reflexivity.
  - reflexivity.
Defined.

(** ** Runs for the further properties *)

Definition props_picky : Props := mkProps (Some 5) None (Some Demo.style_x) (Some [5]).

(** The host passes another [defaultParser]; [Fmt] stays active. *)
Lemma only_the_format_select_changes_the_parser_witness :
  let w := mount Demo.objects Demo.props_fmt in
  let e := HostRender (mkProps (Some 1) None (Some Demo.style_y) (Some [1; 0])) in
  is_ParserSelect e = false /\
  activeParser (state (step e w)) = Some 0.
Proof.
  intros w e. split; [reflexivity|].
  exact (only_the_format_select_changes_the_parser e w eq_refl).
Defined.

Lemma only_the_units_select_writes_to_the_store_witness :
  let w := run [Settle 0] (mount Demo.objects Demo.props_fmt) in
  let e := ParserSelect "Broken" in
  is_UnitSelect e = false /\
  heap (step e w) = Demo.objects.
Proof.
  intros w e. split; [reflexivity|].
  exact (only_the_units_select_writes_to_the_store e w eq_refl).
Defined.

(** After a commit has handed [y] to the host, the host renders with it. *)
Lemma only_commits_call_the_host_witness :
  let w := run [Settle 0; UserEdit (Some "FMT:y"); Advance 500; Settle 0]
             (mount Demo.objects Demo.props_fmt) in
  let e := HostRender Demo.props_fmt_y in
  may_commit e w = false /\
  List.filter is_onStyleChange (log (step e w))
  = [CallOnStyleChange (Some Demo.style_y)].
Proof.
  intros w e. split; [reflexivity|].
  exact (only_commits_call_the_host e w eq_refl).
Defined.

Lemma settling_requests_nothing_witness :
  let w := run [HostRender Demo.props_fmt_y] (mount Demo.objects Demo.props_fmt) in
  reachable w /\
  inflight (step (Settle 1) w) = delete 1 (inflight w).
Proof.
  intros w.
  assert (Hw : reachable w) by apply reachable_run, reachable_mount.
  split; [exact Hw|]. apply (settling_requests_nothing w 1 Hw).
Defined.

(** Two timers are running, due at 500 and at 600; 550 ms have passed. *)
Lemma advance_runs_the_due_timers_witness :
  let w := run [Settle 0; UserEdit (Some "FMT:a"); Advance 100;
                HostRender Demo.props_fmt_y; UserEdit (Some "FMT:ab")]
             (mount Demo.objects Demo.props_fmt) in
  reachable w /\
  map due (timers w) = [500; 600] /\
  due_timers (step (Advance 450) w) = [].
Proof.
  intros w.
  assert (Hw : reachable w) by apply reachable_run, reachable_mount.
  split; [exact Hw|]. split; [reflexivity|].
  destruct (advance_runs_the_due_timers w 450 Hw) as (_ & _ & Hd & _).
  exact Hd.
Defined.

Lemma burst_of_edits_commits_once_witness :
  let w := run [Settle 0] (mount Demo.objects Demo.props_fmt) in
  let l := [(Some "FMT:a", 200); (Some "FMT:ab", 499)] in
  hasError (state w) = false /\
  timers w = [] /\
  Forall (fun vd => snd vd < delay (props w)) l /\
  timers (step (Advance (delay (props w)))
            (run (burst l ++ [UserEdit (Some "FMT:abc")]) w)) = [].
Proof.
  intros w l.
  assert (Hl : Forall (fun vd => snd vd < delay (props w)) l).
  { repeat constructor; vm_compute; lia. }
  split; [reflexivity|]. split; [reflexivity|]. split; [exact Hl|].
  apply (burst_of_edits_commits_once w l (Some "FMT:abc") eq_refl eq_refl Hl).
Defined.

(** The parser [Picky] reports errors; the host renders again with the
    same style. *)
Lemma fault_stays_until_the_style_changes_witness :
  let w := run [Settle 0] (mount Demo.objects props_picky) in
  let e := HostRender (mkProps None (Some 100) (Some Demo.style_x) None) in
  reachable w /\
  hasError (state w) = true /\
  brings_new_style e w = false /\
  hasError (state (step e w)) = true.
Proof.
  intros w e.
  assert (Hw : reachable w) by apply reachable_run, reachable_mount.
  split; [exact Hw|]. split; [reflexivity|]. split; [reflexivity|].
  apply (fault_stays_until_the_style_changes e w Hw eq_refl eq_refl).
Defined.

Lemma new_style_is_serialized_witness :
  let w := run [Settle 0] (mount Demo.objects props_picky) in
  reachable w /\
  style Demo.props_fmt_y <> style (props w) /\
  hasError (state w) = true /\
  hasError (state (step (HostRender Demo.props_fmt_y) w)) = false.
Proof.
  intros w.
  assert (Hw : reachable w) by apply reachable_run, reachable_mount.
  assert (Hne : style Demo.props_fmt_y <> style (props w)).
  { intros E. vm_compute in E. discriminate E. }
  split; [exact Hw|]. split; [exact Hne|]. split; [reflexivity|].
  apply (new_style_is_serialized w Demo.props_fmt_y Hw Hne).
Defined.

Lemma format_switch_serializes_the_style_witness :
  let w := run [Settle 0] (mount Demo.objects Demo.props_fmt) in
  reachable w /\
  hasError (state w) = false /\
  activeParser (state (step (ParserSelect "Broken") w)) = Some 1.
Proof.
  intros w.
  assert (Hw : reachable w) by apply reachable_run, reachable_mount.
  split; [exact Hw|]. split; [reflexivity|].
  apply (format_switch_serializes_the_style w "Broken" Hw eq_refl).
Defined.

Lemma format_select_shows_the_selection_witness :
  let w := run [Settle 0] (mount Demo.objects Demo.props_fmt) in
  hasError (state w) = false /\
  parserOptions w = ["GeoStyler Style"; "Broken"; "Fmt"; "Fmt"; "Picky"] /\
  format_select (step (ParserSelect "Picky") w) = "Picky" /\
  format_select (step (ParserSelect "Other") w) = "GeoStyler Style".
Proof.
  intros w. split; [reflexivity|]. split; [reflexivity|]. split.
  - exact (format_select_shows_the_selection w "Picky" eq_refl).
  - exact (format_select_shows_the_selection w "Other" eq_refl).
Defined.

Lemma language_is_xml_for_SLD_titles_witness :
  let w := run [Settle 0] (mount Demo.objects Demo.props_sld) in
  reachable w /\
  editor_language w = "xml".
Proof.
  intros w.
  assert (Hw : reachable w) by apply reachable_run, reachable_mount.
  split; [exact Hw|]. exact (language_is_xml_for_SLD_titles w Hw).
Defined.

Lemma download_names_the_file_after_the_style_witness :
  let w := run [Settle 0] (mount Demo.objects Demo.props_sld) in
  reachable w /\
  onDownloadButtonClick Demo.name w
  = Some (mkDownload (Some "FMT:x") "text/xml;charset=utf-8" "x.sld").
Proof.
  intros w.
  assert (Hw : reachable w) by apply reachable_run, reachable_mount.
  split; [exact Hw|].
  exact (download_names_the_file_after_the_style Demo.name w Hw).
Defined.

Lemma units_select_is_offered_for_SLD_witness :
  let w := run [Settle 0] (mount Demo.objects Demo.props_sld) in
  reachable w /\
  parserHasUnitSelect w = true.
Proof.
  intros w.
  assert (Hw : reachable w) by apply reachable_run, reachable_mount.
  split; [exact Hw|]. exact (units_select_is_offered_for_SLD w Hw).
Defined.

Lemma successful_commit_hands_over_the_output_witness :
  let w := run [Settle 0; UserEdit (Some "FMT:y"); Advance 500]
             (mount Demo.objects Demo.props_fmt) in
  let res := mkRead (Some Demo.style_y) None in
  reachable w /\
  inflight w !! 0 = Some (AwaitReadStyle (Fulfilled res)) /\
  default [] (read_errors res) = [] /\
  log (step (Settle 0) w) = log w ++ [CallOnStyleChange (Some Demo.style_y)].
Proof.
  intros w res.
  assert (Hw : reachable w) by apply reachable_run, reachable_mount.
  split; [exact Hw|]. split; [reflexivity|]. split; [reflexivity|].
  apply (successful_commit_hands_over_the_output w 0 res Hw eq_refl eq_refl).
Defined.

(** The user types, then selects another format before the delay is over. *)
Lemma pending_edit_outlives_an_external_change_witness :
  let w := run [Settle 0] (mount Demo.objects Demo.props_fmt) in
  let e := ParserSelect "Broken" in
  reachable w /\
  hasError (state w) = false /\
  timers w = [] /\
  is_external_change e = true /\
  value (state (run [UserEdit (Some "FMT:y"); e; Advance (delay (props w))] w))
  = Some "FMT:y".
Proof.
  intros w e.
  assert (Hw : reachable w) by apply reachable_run, reachable_mount.
  split; [exact Hw|]. split; [reflexivity|]. split; [reflexivity|].
  split; [reflexivity|].
  apply (pending_edit_outlives_an_external_change w (Some "FMT:y") e
           Hw eq_refl eq_refl eq_refl).
Defined.

(** ** Raw mode *)





(** * ImageField

    A shallow embedding of the component [ImageField]
    ([src/unnamed/part_000]): a text input for the URL of an image which,
    when icon libraries are given, carries a gallery icon that opens an icon
    selector window.  The component holds one state cell, [windowVisible];
    the text it shows is the [value] prop, and changes are handed to the
    host's [onChange], when there is one. *)
Module ImageField.

Section WithLibraries.

(** [IconLibrary] (IconSelector, outside this file's source) is left open. *)
Variable IconLibrary : Type.

(** The props; [has_onChange] tells whether the host passed [onChange]. *)
Record Props := mkProps {
  has_onChange : bool;
  value : option string;
  iconLibraries : option (list IconLibrary);
  tooltipLabel_prop : option string;
  placeholder_prop : option string
}.

(** The defaults of the parameter list (lines 58-64). *)
Definition tooltipLabel (p : Props) : string := default "Open Gallery" (tooltipLabel_prop p).
Definition placeholder (p : Props) : string := default "URL to image" (placeholder_prop p).

(** The component with its state cell, and the calls made to [onChange]. *)
Record World := mkWorld {
  props : Props;
  windowVisible : bool;
  calls : list string
}.

Definition setWindowVisible (b : bool) (w : World) : World :=
  mkWorld (props w) b (calls w).

(** [if (onChange) { onChange(x); }] (lines 92-96 and 104-108) *)
Definition notify (x : string) (w : World) : World :=
  if has_onChange (props w)
  then mkWorld (props w) (windowVisible w) (calls w ++ [x])
  else w.

(** [openWindow] (lines 76-78) *)
Definition openWindow (w : World) : World := setWindowVisible true w.

(** [closeWindow] (lines 80-82): it stores [true] as well. *)
Definition closeWindow (w : World) : World := setWindowVisible true w.

(** An array, empty or not, is truthy. *)
Definition given {A : Type} (x : option A) : bool :=
  match x with Some _ => true | None => false end.

(** What is rendered (lines 84-112). *)
Record IconSelectorWindow := mkWindow {
  window_iconLibraries : option (list IconLibrary);
  selectedIconSrc : option string
}.

Record View := mkView {
  input_className : option string;
  input_value : option string;
  input_placeholder : string;
  addonAfter : option string;           (* the tooltip of the gallery icon *)
  window : option IconSelectorWindow
}.

(** [getIconSelectorButton] (lines 68-74), by its tooltip title. *)
Definition getIconSelectorButton (w : World) : string := tooltipLabel (props w).

Definition view (w : World) : View :=
  mkView
    (if given (iconLibraries (props w)) then Some "gs-image-field-gallery-addon" else None)
    (value (props w))
    (placeholder (props w))
    (if given (iconLibraries (props w)) then Some (getIconSelectorButton w) else None)
    (if negb (windowVisible w) then None
     else Some (mkWindow (iconLibraries (props w)) (value (props w)))).

(** What can happen to the component.  A control can be used only while it
    is rendered. *)
Inductive event :=
| HostRender (p : Props)
| InputChange (x : string)      (* the input reports a change *)
| ClickGallery                  (* the gallery icon is clicked *)
| CloseWindow                   (* the window calls [onClose] *)
| IconSelect (src : string).    (* the window calls [onIconSelect] *)

Definition step (e : event) (w : World) : World :=
  match e with
  | HostRender p => mkWorld p (windowVisible w) (calls w)
  | InputChange x => notify x w
  | ClickGallery =>
      if given (iconLibraries (props w)) then openWindow w else w
  | CloseWindow =>
      if windowVisible w then closeWindow w else w
  | IconSelect src =>
      if windowVisible w then notify src w else w
  end.

Definition run (es : list event) (w : World) : World :=
  fold_left (fun a e => step e a) es w.

(** Mounting: [useState(false)]. *)
Definition mount (p : Props) : World := mkWorld p false [].

(** The texts an event hands over. *)
Definition payload (e : event) : option string :=
  match e with
  | InputChange x => Some x
  | IconSelect src => Some src
  | _ => None
  end.

Definition is_HostRender (e : event) : bool :=
  match e with HostRender _ => true | _ => false end.

(** The host never passes icon libraries. *)
Definition without_libraries (e : event) : bool :=
  match e with
  | HostRender p => negb (given (iconLibraries p))
  | _ => true
  end.

(** ** Properties *)

Lemma step_keeps_window_open e w :
  windowVisible w = true -> windowVisible (step e w) = true.
Proof.
  intros Hw. destruct e; cbn; unfold notify; repeat case_match; done.
Qed.

(** X14. Once the icon selector window is open it stays open: no run of
    events, the window asking to be closed included, hides it again, and it
    keeps being rendered. *)
Theorem icon_window_never_closes es w :
  windowVisible w = true ->
  windowVisible (run es w) = true /\
  window (view (run es w))
  = Some (mkWindow (iconLibraries (props (run es w))) (value (props (run es w)))).
Proof.
  intros Hw.
  assert (Hopen : windowVisible (run es w) = true).
  { revert w Hw. induction es as [|e es IH]; intros w Hw; [done|].
    apply (IH (step e w)). by apply step_keeps_window_open. }
  split; [done|]. unfold view. by rewrite Hopen.
Qed.

(** X15. The window is opened by the gallery icon alone, and the icon is
    there only when icon libraries are given: mounted without libraries and
    never rendered with any, the component does not show the window,
    whatever else happens. *)
Theorem no_libraries_no_window p es :
  given (iconLibraries p) = false ->
  forallb without_libraries es = true ->
  windowVisible (run es (mount p)) = false /\
  addonAfter (view (run es (mount p))) = None.
Proof.
  intros Hp Hes.
  assert (Hinv : forall w,
            windowVisible w = false -> given (iconLibraries (props w)) = false ->
            windowVisible (run es w) = false /\
            given (iconLibraries (props (run es w))) = false).
  { induction es as [|e es IH]; intros w Hw Hl; [done|].
    cbn in Hes. apply andb_true_iff in Hes as [He Hes].
    apply (IH Hes (step e w)).
    - destruct e; cbn; unfold notify; rewrite ?Hw, ?Hl; try done.
      by destruct (has_onChange (props w)).
    - destruct e; cbn; unfold notify; rewrite ?Hw, ?Hl; try done.
      + cbn in He. by apply negb_true_iff in He.
      + by destruct (has_onChange (props w)). }
  destruct (Hinv (mount p) eq_refl Hp) as [Hw Hl].
  split; [done|]. unfold view. by rewrite Hl.
Qed.

(** X16. Changes are handed on in order and nothing else is.  While the
    host does not render the component anew and the window is open, the
    calls made to [onChange] during a run are, when the host passed
    [onChange], the texts of the input changes and the sources of the
    selected icons, one call each, in the order of the events; without
    [onChange] no call is made. *)
Theorem changes_are_forwarded_in_order es w :
  windowVisible w = true ->
  existsb is_HostRender es = false ->
  calls (run es w)
  = calls w ++ (if has_onChange (props w) then omap payload es else []).
Proof.
  intros Hw Hes. revert w Hw.
  induction es as [|e es IH]; intros w Hw.
  - cbn. by destruct (has_onChange (props w)); rewrite app_nil_r.
  - cbn in Hes. apply orb_false_iff in Hes as [He Hes].
    change (run (e :: es) w) with (run es (step e w)).
    rewrite (IH Hes (step e w)) by (by apply step_keeps_window_open).
    assert (Hstep : props (step e w) = props w /\
                    calls (step e w)
                    = calls w ++ (if has_onChange (props w)
                                  then option_list (payload e) else [])).
    { destruct e; try discriminate He; cbn; unfold notify; rewrite ?Hw;
        destruct (has_onChange (props w)); cbn; rewrite ?app_nil_r;
        by destruct (given (iconLibraries (props w))). }
    destruct Hstep as [-> ->].
    destruct (has_onChange (props w)); rewrite <- app_assoc; [|done].
    f_equal. cbn. by destruct (payload e).
Qed.

End WithLibraries.

Arguments mkProps {IconLibrary} _ _ _ _ _.
Arguments has_onChange {IconLibrary} _.
Arguments value {IconLibrary} _.
Arguments iconLibraries {IconLibrary} _.
Arguments props {IconLibrary} _.
Arguments windowVisible {IconLibrary} _.
Arguments calls {IconLibrary} _.
Arguments view {IconLibrary} _.
Arguments step {IconLibrary} _ _.
Arguments run {IconLibrary} _ _.
Arguments mount {IconLibrary} _.
Arguments HostRender {IconLibrary} _.
Arguments InputChange {IconLibrary} _.
Arguments ClickGallery {IconLibrary}.
Arguments CloseWindow {IconLibrary}.
Arguments IconSelect {IconLibrary} _.
Arguments is_HostRender {IconLibrary} _.
Arguments without_libraries {IconLibrary} _.

(** ** Runs *)

Definition props_gallery : Props string :=
  mkProps true (Some "a.png") (Some []) None None.

Definition props_plain : Props string :=
  mkProps true (Some "a.png") None None None.

(** The gallery is opened and the window asks to be closed. *)
Lemma icon_window_never_closes_witness :
  let w := run [ClickGallery] (mount props_gallery) in
  windowVisible w = true /\
  windowVisible (run [CloseWindow; CloseWindow] w) = true.
Proof.
  intros w. split; [reflexivity|].
  apply (icon_window_never_closes string [CloseWindow; CloseWindow] w eq_refl).
Defined.

Lemma no_libraries_no_window_witness :
  let es := [ClickGallery; InputChange "b.png";
             HostRender props_plain; ClickGallery] in
  given (iconLibraries props_plain) = false /\
  forallb without_libraries es = true /\
  windowVisible (run es (mount props_plain)) = false.
Proof.
  intros es. split; [reflexivity|]. split; [reflexivity|].
  apply (no_libraries_no_window string props_plain es eq_refl eq_refl).
Defined.

Lemma changes_are_forwarded_in_order_witness :
  let w := run [ClickGallery] (mount props_gallery) in
  let es := [InputChange "b"; CloseWindow; IconSelect "c.svg"; InputChange "bc"] in
  windowVisible w = true /\
  existsb is_HostRender es = false /\
  calls (run es w) = ["b"; "c.svg"; "bc"].
Proof.
  intros w es. split; [reflexivity|]. split; [reflexivity|].
  exact (changes_are_forwarded_in_order string es w eq_refl eq_refl).
Defined.

End ImageField.
